(** * encapt: a shallow embedding of [encapt.py]

    The script wires one coordinator agent and one worker agent per Kotlin
    source file ("bean") found under a fixed directory, and gives every agent
    five tools (write a file, create a directory, run all tests, run one
    test, send a message).

    Layout of this development:
    - [Py]         Python [str] methods used by the script, and exceptions;
    - [posixpath]  [os.path.join] and [os.path.basename];
    - [Os]         the file system the script runs against: lookup of paths,
                   [open], [os.makedirs], [os.walk];
    - [subprocess] [subprocess.run] with [check=True];
    - [camel]      the part of the agent library the script calls;
    - the script itself: [QuarkusBean] and [EncaptWorkforce];
    - the properties.

    A Python [str] is modelled as a [string] of 8-bit characters, the code
    points below 256; which of them an encoding has bytes for is given with
    the world the script runs in.  Integers that can be [-1] (results of
    [str.find]) are in [Z].  A file holds the text that Python reads from
    it.  [send_message] and
    [process_change_request] hand a task to the engine of the agent library:
    the task they make is modelled, the engine is not. *)

From Stdlib Require Import ZArith Ascii Strings.Byte Lia.
From stdpp Require Import base option list gmap strings pretty.

Local Open Scope Z_scope.

(** ** Python strings and exceptions *)

Module Py.

(** The exceptions the script can meet.  [IOError], [FileNotFoundError],
    [IsADirectoryError], [NotADirectoryError], [FileExistsError] and
    [PermissionError] are all [OSError] in Python 3; they differ by [errno].
    An [OSError] names a file, or none.  [UnicodeEncodeError] and
    [UnicodeDecodeError] are kinds of [ValueError], and are no [OSError];
    what they say about the text that could not be converted is left out. *)
Inductive exn : Type :=
| OSError (errno : Z) (strerror : string) (filename : option string)
| ValueError (msg : string)
| UnicodeEncodeError
| UnicodeDecodeError
| CalledProcessError (returncode : Z) (cmd : list string)
    (output stderr : string).

Inductive result (A : Type) : Type :=
| Return (a : A)
| Raise (e : exn).
Arguments Return {A} a.
Arguments Raise {A} e.

(** An exception raised in [m] propagates: [k] is not run. *)
Definition bind {A B} (k : A → result B) (m : result A) : result B :=
  match m with
  | Return a => k a
  | Raise e => Raise e
  end.

#[global] Instance result_ret : MRet result := @Return.
#[global] Instance result_bind : MBind result := @bind.

Definition len (s : string) : Z := Z.of_nat (String.length s).

(** [str.isspace] of one character, on the code points below 256. *)
Definition isspace (c : ascii) : bool :=
  let n := N_of_ascii c in
  ((9 <=? n) && (n <=? 13) || (28 <=? n) && (n <=? 32)
   || (n =? 133) || (n =? 160))%N.

(** How [find] and slicing read an index: a negative index counts from the
    end, and is clamped at [0]. *)
Definition adjust (i : Z) (n : Z) : Z :=
  if i <? 0 then Z.max 0 (i + n) else i.

(** [s.find(sub, start)]: the lowest index at or after [start] where [sub]
    occurs in [s], or [-1]. *)
Definition find (s sub : string) (start : Z) : Z :=
  match String.index (Z.to_nat (adjust start (len s))) sub s with
  | Some i => Z.of_nat i
  | None => -1
  end.

(** [s.rfind(sub)]: the highest index where [sub] occurs in [s], or [-1]. *)
Fixpoint rfind_from (s sub : string) : option nat :=
  match s with
  | EmptyString => if String.prefix sub s then Some O else None
  | String _ s' =>
      match rfind_from s' sub with
      | Some i => Some (S i)
      | None => if String.prefix sub s then Some O else None
      end
  end.

Definition rfind (s sub : string) : Z :=
  match rfind_from s sub with
  | Some i => Z.of_nat i
  | None => -1
  end.

(** [s[i:j]] *)
Definition slice (s : string) (i j : Z) : string :=
  let n := len s in
  let i' := Z.min (adjust i n) n in
  let j' := Z.min (adjust j n) n in
  String.substring (Z.to_nat i') (Z.to_nat (j' - i')) s.

(** [s[i:]] *)
Definition slice_from (s : string) (i : Z) : string :=
  slice s i (len s).

Fixpoint lstrip (s : string) : string :=
  match s with
  | EmptyString => EmptyString
  | String c s' => if isspace c then lstrip s' else s
  end.

Fixpoint rstrip (s : string) : string :=
  match s with
  | EmptyString => EmptyString
  | String c s' =>
      match rstrip s' with
      | EmptyString => if isspace c then EmptyString else String c EmptyString
      | r => String c r
      end
  end.

(** [s.strip()] *)
Definition strip (s : string) : string := rstrip (lstrip s).

Definition startswith (s pre : string) : bool := String.prefix pre s.

(** [s.endswith(suf)]: the last [len(suf)] characters of [s] are [suf]. *)
Definition endswith (s suf : string) : bool :=
  (String.length suf <=? String.length s)%nat
  && String.eqb
       (String.substring (String.length s - String.length suf)
          (String.length suf) s)
       suf.

(** [s.split(sep)] for a separator of one character. *)
Fixpoint split (s : string) (sep : ascii) : list string :=
  match s with
  | EmptyString => [EmptyString]
  | String c s' =>
      if Ascii.eqb c sep then EmptyString :: split s' sep
      else match split s' sep with
           | [] => [String c EmptyString]
           | w :: ws => String c w :: ws
           end
  end.

(** [l[0]] on the list that [split] returns, which is never empty. *)
Definition first (l : list string) : string :=
  match l with
  | [] => EmptyString
  | x :: _ => x
  end.

(** [sep.join(l)] *)
Definition join (sep : string) (l : list string) : string :=
  String.concat sep l.

(** [c in s] for one character. *)
Fixpoint contains (s : string) (c : ascii) : bool :=
  match s with
  | EmptyString => false
  | String a s' => Ascii.eqb a c || contains s' c
  end.

Definition CR : ascii := "013"%char.
Definition LF : ascii := "010"%char.

(** How text is read with universal newlines, from a file opened in text
    mode as from the output of a process run with [text=True]: a carriage
    return followed by a line feed, and a carriage return alone, are read as
    one line feed. *)
Fixpoint universal_newlines (s : string) : string :=
  match s with
  | EmptyString => EmptyString
  | String c s' =>
      if Ascii.eqb c CR then
        match s' with
        | String c' s'' =>
            if Ascii.eqb c' LF then String LF (universal_newlines s'')
            else String LF (universal_newlines s')
        | EmptyString => String LF EmptyString
        end
      else String c (universal_newlines s')
  end.

Definition squote : ascii := "039"%char.
Definition dquote : ascii := "034"%char.
Definition backslash : ascii := "092"%char.

Definition hexdigit (n : N) : ascii :=
  default "0"%char (String.get (N.to_nat n) "0123456789abcdef").

(** [str.isprintable] of one character, on the code points below 256. *)
Definition isprintable (c : ascii) : bool :=
  let n := N_of_ascii c in
  ((32 <=? n) && (n <=? 126) || (161 <=? n) && negb (n =? 173))%N.

(** One character of [repr(s)], between the quotes [q]. *)
Definition repr_char (q c : ascii) : string :=
  let n := N_of_ascii c in
  if Ascii.eqb c q || Ascii.eqb c backslash
  then String backslash (String c EmptyString)
  else if (n =? 9)%N then "\t"
  else if (n =? 10)%N then "\n"
  else if (n =? 13)%N then "\r"
  else if isprintable c then String c EmptyString
  else String backslash
         (String "x" (String (hexdigit (n / 16)) (String (hexdigit (n mod 16))
            EmptyString))).

Fixpoint repr_chars (q : ascii) (s : string) : string :=
  match s with
  | EmptyString => EmptyString
  | String c s' => repr_char q c +:+ repr_chars q s'
  end.

(** [repr(s)]: between single quotes, unless [s] holds a single quote and
    no double quote. *)
Definition repr (s : string) : string :=
  let q := if contains s squote && negb (contains s dquote)
           then dquote else squote in
  String q (repr_chars q s +:+ String q EmptyString).

End Py.

Import Py.

(** ** [os.path] on POSIX *)

Module posixpath.

(** [os.path.join(a, b)]: an absolute [b] replaces [a]; otherwise the two
    are put together with one ["/"] unless [a] is empty or already ends
    with it. *)
Definition join (a b : string) : string :=
  if startswith b "/" then b
  else if String.eqb a "" || endswith a "/" then a +:+ b
  else a +:+ "/" +:+ b.

(** [os.path.join(a, *ps)] *)
Definition join_all (a : string) (ps : list string) : string :=
  foldl join a ps.

(** [os.path.basename(p)]: what follows the last ["/"]. *)
Definition basename (p : string) : string :=
  let i := rfind p "/" + 1 in
  slice_from p i.

End posixpath.

(** ** The file system

    A tree of directories and text files without links.  A place in the tree
    is the list of component names that leads to it from the root, innermost
    name first, so that the parent of a place is its tail and the root is
    [[]].  The root always is a directory.

    What is not in the tree is given with the world: the characters that the
    encodings have bytes for, whether a file may be opened for writing and
    what becomes of the text written (permissions, limits and the room on
    the device are not modelled, their effect is), and what running a
    program gives. *)

Module Os.

Inductive node : Type :=
| File (text : string)
| Dir.

(** Whether the system lets a file be opened for writing: permissions and
    limits on names are not modelled, their effect is. *)
Inductive opening : Type :=
| Allowed
| Denied (errno : Z) (strerror : string).

(** What becomes of a text written to an open file: it is stored; or
    writing the data, or closing the file, fails, and the file is left with
    what got through. *)
Inductive stored : Type :=
| Stored
| Failed (errno : Z) (strerror : string) (kept : string).

(** What starting a program gives: the system refuses to run it, or it runs
    and exits with a status, having written bytes to its standard output
    and its standard error. *)
Inductive launch : Type :=
| Refused (errno : Z) (strerror : string)
| Exited (returncode : Z) (out err : list byte).

Record world : Type := mkWorld {
  (** the working directory of the process *)
  cwd : list string;
  (** what is stored at each place *)
  disk : gmap (list string) node;
  (** what running the program stored at a place with an argument vector
      gives *)
  exec : list string → list string → launch;
  (** the characters above the ASCII range that the encoding of file names
      has bytes for *)
  fs_chars : ascii → bool;
  (** the same for the encoding of the locale, in which text files are
      written *)
  text_chars : ascii → bool;
  (** the text that the encoding of the locale reads from bytes, when it
      reads one *)
  decode : list byte → option string;
  (** whether the file under a path may be opened for writing *)
  may_open : string → opening;
  (** what becomes of a text written to the file opened under a path *)
  device : string → string → stored;
}.

Definition with_disk (w : world) (d : gmap (list string) node) : world :=
  {| cwd := cwd w; disk := d; exec := exec w; fs_chars := fs_chars w;
     text_chars := text_chars w; decode := decode w;
     may_open := may_open w; device := device w |}.

Definition with_cwd (w : world) (c : list string) : world :=
  {| cwd := c; disk := disk w; exec := exec w; fs_chars := fs_chars w;
     text_chars := text_chars w; decode := decode w;
     may_open := may_open w; device := device w |}.

Definition node_at (d : gmap (list string) node) (p : list string)
  : option node :=
  match p with
  | [] => Some Dir
  | _ => d !! p
  end.

Definition NUL : ascii := "000"%char.

Definition ENOENT (p : string) : exn :=
  OSError 2 "No such file or directory" (Some p).
Definition EACCES (p : string) : exn :=
  OSError 13 "Permission denied" (Some p).
Definition EEXIST (p : string) : exn := OSError 17 "File exists" (Some p).
Definition ENOTDIR (p : string) : exn :=
  OSError 20 "Not a directory" (Some p).
Definition EISDIR (p : string) : exn := OSError 21 "Is a directory" (Some p).

(** A text can be encoded when each of its characters can.  Every encoding
    that a locale can have encodes ASCII. *)
Fixpoint encodes (chars : ascii → bool) (s : string) : bool :=
  match s with
  | EmptyString => true
  | String c s' => ((N_of_ascii c <? 128)%N || chars c) && encodes chars s'
  end.

(** [os.fsencode(s)] does not raise. *)
Definition fsencodable (w : world) (s : string) : bool :=
  encodes (fs_chars w) s.

(** [s.encode()] does not raise, for the encoding of text files. *)
Definition encodable (w : world) (s : string) : bool :=
  encodes (text_chars w) s.

(** How a [str] is handed to the system as a file name or as an argument:
    it is encoded, and then must not hold a NUL character. *)
Definition fsconvert (w : world) (s : string) : result unit :=
  if negb (fsencodable w s) then Raise UnicodeEncodeError
  else if contains s NUL then Raise (ValueError "embedded null byte")
  else Return ().

(** Where a path starts: at the root when it is absolute, at the working
    directory otherwise. *)
Definition origin (w : world) (p : string) : list string :=
  if startswith p "/" then [] else cwd w.

(** One component [c] of the path [p], read in the directory [cur]. *)
Definition enter (d : gmap (list string) node) (cur : list string)
    (c p : string) : result (list string) :=
  match node_at d cur with
  | Some Dir =>
      if bool_decide (c = "" ∨ c = ".") then Return cur
      else if bool_decide (c = "..") then Return (tail cur)
      else Return (c :: cur)
  | Some (File _) => Raise (ENOTDIR p)
  | None => Raise (ENOENT p)
  end.

Fixpoint lookup_from (d : gmap (list string) node) (cur : list string)
    (cs : list string) (p : string) : result (list string) :=
  match cs with
  | [] => Return cur
  | c :: cs' => cur' ← enter d cur c p; lookup_from d cur' cs' p
  end.

(** The place a path names.  Every component but the last has to be an
    existing directory; the last need not exist. *)
Definition namei (w : world) (p : string) : result (list string) :=
  _ ← fsconvert w p;
  if String.eqb p "" then Raise (ENOENT p)
  else lookup_from (disk w) (origin w p) (split p "/") p.

(** [open(p, 'r')] followed by [read()]. *)
Definition read_text (w : world) (p : string) : result string :=
  t ← namei w p;
  match node_at (disk w) t with
  | Some (File text) => Return text
  | Some Dir => Raise (EISDIR p)
  | None => Raise (ENOENT p)
  end.

(** [open(p, 'w')]: the file is created, or cut to nothing.  When [open]
    fails nothing changes. *)
Definition open_w (w : world) (p : string)
  : result (list string) * world :=
  match namei w p with
  | Raise e => (Raise e, w)
  | Return t =>
      match node_at (disk w) t with
      | Some Dir => (Raise (EISDIR p), w)
      | _ =>
          match may_open w p with
          | Denied n msg => (Raise (OSError n msg (Some p)), w)
          | Allowed => (Return t, with_disk w (<[t := File ""]> (disk w)))
          end
      end
  end.

(** [file.write(text)] on the file opened under [p] at the place [t], and
    closing it.  [write] encodes the text, which can fail; the data are
    written out when the file is closed at the latest, which can fail too,
    with an [OSError] that names no file.  The text of a file being what
    Python reads from it, and reading being done with universal newlines,
    the file then holds the text written with its line ends as they are
    read. *)
Definition write_close (w : world) (p : string) (t : list string)
    (text : string) : result unit * world :=
  if negb (encodable w text) then (Raise UnicodeEncodeError, w)
  else
    match device w p text with
    | Stored =>
        (Return (),
         with_disk w (<[t := File (universal_newlines text)]> (disk w)))
    | Failed n msg kept =>
        (Raise (OSError n msg None),
         with_disk w (<[t := File kept]> (disk w)))
    end.

(** [with open(p, 'w') as file: file.write(text)] *)
Definition write_text (w : world) (p text : string) : result unit * world :=
  match open_w w p with
  | (Return t, w') => write_close w' p t text
  | (Raise e, w') => (Raise e, w')
  end.

(** One component of [os.makedirs]: a missing directory is created, an
    existing entry is entered. *)
Definition mkdir_step (w : world) (d : gmap (list string) node)
    (cur : list string) (c p : string)
  : result (list string) * gmap (list string) node :=
  match fsconvert w c with
  | Raise e => (Raise e, d)
  | Return _ =>
      match node_at d cur with
      | Some Dir =>
          if bool_decide (c = "" ∨ c = ".") then (Return cur, d)
          else if bool_decide (c = "..") then (Return (tail cur), d)
          else match node_at d (c :: cur) with
               | None => (Return (c :: cur), <[c :: cur := Dir]> d)
               | Some _ => (Return (c :: cur), d)
               end
      | Some (File _) => (Raise (ENOTDIR p), d)
      | None => (Raise (ENOENT p), d)
      end
  end.

Fixpoint makedirs_from (w : world) (d : gmap (list string) node)
    (cur : list string) (cs : list string) (p : string)
  : result (list string) * gmap (list string) node :=
  match cs with
  | [] => (Return cur, d)
  | c :: cs' =>
      match mkdir_step w d cur c p with
      | (Return cur', d') => makedirs_from w d' cur' cs' p
      | (Raise e, d') => (Raise e, d')
      end
  end.

(** [os.makedirs(p, exist_ok=True)]: every directory on the way is created
    when missing.  The directories made before a failure stay.  CPython
    first makes the head of the path, by recursion, and then calls [mkdir] on
    the whole path; going through the components from the left makes the same
    directories.  Where [os.makedirs] raises an [OSError] for a component
    that is in the way, the model raises one too, but it always names the
    whole path, and the error number is the one met at that component: these
    can differ from what [mkdir] reports.  Limits on the length of names and
    on the depth of the recursion are not modelled. *)
Definition makedirs (w : world) (p : string) : result unit * world :=
  if String.eqb p "" then (Raise (ENOENT p), w)
  else
    match makedirs_from w (disk w) (origin w p) (split p "/") p with
    | (Return t, d') =>
        match node_at d' t with
        | Some Dir => (Return (), with_disk w d')
        | _ => (Raise (EEXIST p), with_disk w d')
        end
    | (Raise e, d') => (Raise e, with_disk w d')
    end.

(** The entries of the directory [cur]: names and nodes. *)
Definition scandir (d : gmap (list string) node) (cur : list string)
  : list (string * node) :=
  omap (λ kn : list string * node,
          match kn.1 with
          | c :: k => if bool_decide (k = cur) then Some (c, kn.2) else None
          | [] => None
          end)
       (map_to_list d).

Definition is_dir (n : node) : bool :=
  match n with Dir => true | File _ => false end.

(** [os.walk], top down: the directory itself, then each subdirectory in
    turn.  [fuel] bounds the depth. *)
Fixpoint walk_from (fuel : nat) (d : gmap (list string) node)
    (top : string) (cur : list string)
  : list (string * list string * list string) :=
  match fuel with
  | O => []
  | S fuel' =>
      let entries := scandir d cur in
      let dirs := (filter (λ e, is_dir e.2 = true) entries).*1 in
      let nondirs := (filter (λ e, is_dir e.2 = false) entries).*1 in
      (top, dirs, nondirs)
        :: mbind (λ c, walk_from fuel' d (posixpath.join top c) (c :: cur))
             dirs
  end.

(** No place on the disk is deeper than this. *)
Definition depth (d : gmap (list string) node) : nat :=
  max_list (length <$> (map_to_list d).*1).

(** [os.walk(top)] with the default [onerror=None]: a top that cannot be
    listed yields nothing.  The order of the entries of a directory is the
    order in which the disk enumerates them.  The script walks from a
    constant top, which can be handed to the system; for a top that cannot,
    [os.walk] raises, which is not modelled. *)
Definition walk (w : world) (top : string)
  : list (string * list string * list string) :=
  match namei w top with
  | Return t =>
      match node_at (disk w) t with
      | Some Dir => walk_from (S (depth (disk w))) (disk w) top t
      | _ => []
      end
  | Raise _ => []
  end.

(** [str(e)] for an [OSError] [e] made of an error number, a message and,
    or not, a file name. *)
Definition str (errno : Z) (strerror : string) (filename : option string)
  : string :=
  match filename with
  | Some f => "[Errno " +:+ pretty errno +:+ "] " +:+ strerror +:+ ": " +:+ repr f
  | None => "[Errno " +:+ pretty errno +:+ "] " +:+ strerror
  end.

End Os.

(** ** [subprocess.run] *)

Module subprocess.

Record CompletedProcess : Type := mkCompleted {
  args : list string;
  returncode : Z;
  stdout : string;
  stderr : string;
}.

(** The captured output of the process as a [str]: with [text=True] the
    bytes are decoded with the encoding of the locale, which can fail, and
    read with universal newlines. *)
Definition text (w : Os.world) (data : list byte) : result string :=
  match Os.decode w data with
  | Some s => Return (universal_newlines s)
  | None => Raise UnicodeDecodeError
  end.

(** The arguments are handed to the system one after the other. *)
Fixpoint convert_args (w : Os.world) (args : list string) : result unit :=
  match args with
  | [] => Return ()
  | a :: args' => _ ← Os.fsconvert w a; convert_args w args'
  end.

(** [subprocess.run(args, cwd=cwd, capture_output=True, text=True,
    check=check)] for a program named by a path with a ["/"] in it.  The
    child changes to [cwd] and runs the program found from there; when
    either cannot be done, [OSError] is raised in the parent.  The output
    is captured until the program has exited, and then made text.  With
    [check], a non-zero exit status raises [CalledProcessError], whose
    [output] is the captured standard output. *)
Definition run (w : Os.world) (args : list string) (cwd : string)
    (check : bool) : result CompletedProcess :=
  _ ← convert_args w args;
  d ← Os.namei w cwd;
  match Os.node_at (Os.disk w) d with
  | Some Os.Dir =>
      let prog := default "" (head args) in
      x ← Os.namei (Os.with_cwd w d) prog;
      match Os.node_at (Os.disk w) x with
      | Some (Os.File _) =>
          match Os.exec w x args with
          | Os.Refused n msg => Raise (OSError n msg (Some prog))
          | Os.Exited rc out err =>
              out ← text w out;
              err ← text w err;
              if check && negb (rc =? 0)
              then Raise (CalledProcessError rc args out err)
              else Return (mkCompleted args rc out err)
          end
      | Some Os.Dir => Raise (Os.EACCES prog)
      | None => Raise (Os.ENOENT prog)
      end
  | Some (Os.File _) => Raise (Os.ENOTDIR cwd)
  | None => Raise (Os.ENOENT cwd)
  end.

End subprocess.

(** ** The agent library

    Only what the script calls: a system message has a role name and a
    content; an agent has a system message and tools; a workforce keeps its
    workers, each under a description, in the order they were added.  The
    language model bound to an agent plays no part here and is left out. *)

Module camel.

Record BaseMessage : Type := mkMessage {
  role_name : string;
  msg_content : string;
}.

Definition make_assistant_message (role_name content : string)
  : BaseMessage :=
  mkMessage role_name content.

Record ChatAgent (T : Type) : Type := mkAgent {
  system_message : BaseMessage;
  tools : list T;
}.
Arguments mkAgent {T} _ _.
Arguments system_message {T} _.
Arguments tools {T} _.

Record Workforce (T : Type) : Type := mkWorkforce {
  description : string;
  children : list (string * ChatAgent T);
}.
Arguments mkWorkforce {T} _ _.
Arguments description {T} _.
Arguments children {T} _.

Definition Workforce_init {T} (description : string) : Workforce T :=
  mkWorkforce description [].

Definition add_single_agent_worker {T} (wf : Workforce T)
    (description : string) (worker : ChatAgent T) : Workforce T :=
  mkWorkforce (camel.description wf) (children wf ++ [(description, worker)]).

End camel.

(** ** The script: [QuarkusBean] *)

Record QuarkusBean : Type := mkBean {
  file_path : string;
  name : string;
  content : string;
  doc_comment : string;
}.

Definition extract_doc_comment (content : string) : string :=
  let start := find content "/**" 0 in
  let end_ := find content "*/" start in
  if negb (start =? -1) && negb (end_ =? -1)
  then strip (slice content start (end_ + 2))
  else "".

Definition read_file (w : Os.world) (file_path : string)
  : result (string * string) :=
  content ← Os.read_text w file_path;
  let doc_comment := extract_doc_comment content in
  Return (content, doc_comment).

(** [QuarkusBean.__init__]: what [QuarkusBean(file_path)] makes. *)
Definition QuarkusBean_init (w : Os.world) (file_path : string)
  : result QuarkusBean :=
  let name := first (split (posixpath.basename file_path) ".") in
  cd ← read_file w file_path;
  Return (mkBean file_path name cd.1 cd.2).

(** ** The script: [EncaptWorkforce] *)

Definition PROJECT_ROOT : string := "./encapt-project".

Definition BEANS_DIR : string :=
  Eval vm_compute in
    posixpath.join_all PROJECT_ROOT
      ["src"; "main"; "kotlin"; "org"; "camelai"; "beans"].

(** The five tools.  Every agent gets all of them. *)
Inductive tool : Type :=
| tool_write_file
| tool_create_directory
| tool_run_all_bean_tests
| tool_run_specific_bean_test
| tool_send_message.

Definition get_tools : list tool :=
  [tool_write_file; tool_create_directory; tool_run_all_bean_tests;
   tool_run_specific_bean_test; tool_send_message].

Definition manager_content : string :=
  "You are responsible for managing the Quarkus codebase.
            Your responsibilities include:
            1. Coordinating changes across multiple beans
            2. Ensuring overall project consistency
            3. Delegating tasks to appropriate bean agents

            Use the provided tools to write files, run tests, get test summaries, and send messages to other agents when needed.

            When creating a new agent or bean, only write a kotlin class with appropriate Quarkus annotations and a doc comment that outlines the responsibilities of the bean. The agent will handle the rest.

            Always wrap your final response in <result> tags.
            ".

Definition bean_content (bean_name bean_doc_comment others : string)
  : string :=
  "You are responsible for the " +:+ bean_name +:+ " Quarkus bean.
            Your responsibilities include:
            " +:+ bean_doc_comment +:+ "

            Here are the other beans and their responsibilities, derived from the classes doccomment:
            " +:+ others +:+ ". Inject them using quarkus @Inject annotation as appropriate and needed.

            Fully implement the responsibilities of the bean.
            Use the provided tools to read and modify your bean's content, run tests, get test summaries, and send messages to other agents.
            When you notice code errors or a failed test, edit the code and try running again, until the tests pass.
            Coordinate with the Manager Agent for changes that affect multiple beans. When you make changes, ensure they are tested and working correctly. Edit and test until you are happy.

            Message another agent with your message tool if you need to know more details about its service, ask for help, or request a change. You should also work with them to meet the shared responsibilities of the beans.

            Always wrap your final response in <result> tags.
            ".

(** The inner loop of [_load_beans]: the files of one directory. *)
Fixpoint load_files (w : Os.world) (root : string) (files : list string)
    (beans : list QuarkusBean) : result (list QuarkusBean) :=
  match files with
  | [] => Return beans
  | file :: files' =>
      if endswith file ".kt"
      then
        let file_path := posixpath.join root file in
        bean ← QuarkusBean_init w file_path;
        load_files w root files' (beans ++ [bean])
      else load_files w root files' beans
  end.

(** The outer loop of [_load_beans]: what [os.walk] yields. *)
Fixpoint load_walk (w : Os.world)
    (walk : list (string * list string * list string))
    (beans : list QuarkusBean) : result (list QuarkusBean) :=
  match walk with
  | [] => Return beans
  | (root, dirs, files) :: walk' =>
      beans' ← load_files w root files beans;
      load_walk w walk' beans'
  end.

Definition _load_beans (w : Os.world) : result (list QuarkusBean) :=
  load_walk w (Os.walk w BEANS_DIR) [].

(** The list in the middle of a worker's prompt: [f'{b.name}:
    {b.doc_comment}'] for every [b] in [self.beans] with
    [b.name != bean.name]. *)
Definition other_beans (beans : list QuarkusBean) (bean : QuarkusBean)
  : list string :=
  (λ b, name b +:+ ": " +:+ doc_comment b)
    <$> filter (λ b, name b ≠ name bean) beans.

Definition _create_bean_agent (beans : list QuarkusBean)
    (wf : camel.Workforce tool) (bean : QuarkusBean)
    (function_list : list tool) : camel.Workforce tool :=
  let sysmsg :=
    camel.make_assistant_message (name bean +:+ " Agent")
      (bean_content (name bean) (doc_comment bean)
         (Py.join ", " (other_beans beans bean))) in
  camel.add_single_agent_worker wf (name bean)
    (camel.mkAgent sysmsg function_list).

Definition _setup_workforce (beans : list QuarkusBean)
    (wf : camel.Workforce tool) : camel.Workforce tool :=
  let function_list := get_tools in
  let manager_sysmsg :=
    camel.make_assistant_message "Manager Agent" manager_content in
  let wf :=
    camel.add_single_agent_worker wf "Manager"
      (camel.mkAgent manager_sysmsg function_list) in
  foldl (λ wf bean, _create_bean_agent beans wf bean function_list) wf beans.

(** [EncaptWorkforce.__init__]: the beans as loaded, and the workforce set
    up. *)
Definition EncaptWorkforce_init (w : Os.world)
  : result (list QuarkusBean * camel.Workforce tool) :=
  let workforce := camel.Workforce_init "Quarkus Codebase Manager" in
  beans ← _load_beans w;
  Return (beans, _setup_workforce beans workforce).

(** *** The tools

    A tool takes the world it runs in.  The two that change the disk give the
    world back. *)

Definition write_file (w : Os.world) (file_name content : string)
  : result string * Os.world :=
  if negb (endswith file_name ".kt")
  then (Return "Error: Only .kt files are allowed.", w)
  else
    let file_path := posixpath.join BEANS_DIR file_name in
    match Os.write_text w file_path content with
    | (Return _, w') =>
        (Return ("Successfully wrote content to " +:+ file_name), w')
    | (Raise (OSError n msg f), w') =>
        (Return ("Error writing to file: " +:+ Os.str n msg f), w')
    | (Raise e, w') => (Raise e, w')
    end.

Definition create_directory (w : Os.world) (dir_name : string)
  : result string * Os.world :=
  let dir_path := posixpath.join BEANS_DIR dir_name in
  match Os.makedirs w dir_path with
  | (Return _, w') =>
      (Return ("Successfully created directory " +:+ dir_name), w')
  | (Raise (OSError n msg f), w') =>
      (Return ("Error creating directory: " +:+ Os.str n msg f), w')
  | (Raise e, w') => (Raise e, w')
  end.

Definition run_all_bean_tests (w : Os.world) : result string :=
  match
    subprocess.run w ["./gradlew"; "test"; "--tests=org.camelai.beans.*"]
      PROJECT_ROOT true
  with
  | Return result => Return (subprocess.stdout result)
  | Raise (CalledProcessError _ _ output _) =>
      Return ("Error running bean tests: " +:+ output)
  | Raise e => Raise e
  end.

Definition run_specific_bean_test (w : Os.world) (bean_name : string)
  : result string :=
  match
    subprocess.run w
      ["./gradlew"; "test";
       "--tests=org.camelai.beans." +:+ bean_name +:+ "Test"]
      PROJECT_ROOT true
  with
  | Return result => Return (subprocess.stdout result)
  | Raise (CalledProcessError _ _ output _) =>
      Return ("Error running test for " +:+ bean_name +:+ ": " +:+ output)
  | Raise e => Raise e
  end.

(** *** Tasks

    A task of the agent library has a content and an id.  [send_message]
    makes one and posts it on the channel of the workforce with
    [post_task(task, from_agent, to_agent)]; [process_change_request] makes
    one and hands it to [process_task].  What the library then does with a
    task is not part of the script; the model stops at the task and at the
    arguments of the call. *)

Record Task : Type := mkTask {
  task_content : string;
  task_id : string;
}.

(** The content of the task that [send_message] makes. *)
Definition message_content (from_agent message : string) : string :=
  "You have received a message from " +:+ from_agent +:+ ":

" +:+ message +:+ "

Please process this message and respond appropriately. If any actions are required, take them using your available tools.

Use the message tool to respond to " +:+ from_agent +:+ " with your response. Always respond something, but fulfill the request first if possible.

Always put <response> tags around your response. For example:
<response>I have processed your request and updated the UserService.</response>
".

(** [send_message]: the three arguments of its one call of [post_task], and
    the string it returns. *)
Definition send_message (to_agent from_agent message : string)
  : (Task * string * string) * string :=
  let task :=
    mkTask (message_content from_agent message)
      ("inter_agent_message_" +:+ to_agent) in
  ((task, from_agent, to_agent),
   "Message sent to " +:+ to_agent
     +:+ ". A task has been created for them to respond.").

(** [process_change_request]: the task it hands to [process_task]. *)
Definition process_change_request (request : string) : Task :=
  mkTask
    ("Process the following change request:

    " +:+ request +:+ "

    Analyze which beans need to be modified or created. Use the provided tools to make necessary changes,
    run tests, and ensure the changes are working correctly. Coordinate between agents as needed. Ensure a bean is only edited by its agent. If you believe a change needs to be made, communicate with that agent using the send_message tool to request the change.

    Always put <result> tags around the result of your actions. For example, <result>Modified UserService to include a new method.</result>. Include ALL relevant details in the result tag, multiple lines are fine, but there must only be one tag.

")
    "change_request".

(** ** Vocabulary of the properties *)

(** [sub] occurs in [s] at index [i]. *)
Definition occurs (sub s : string) (i : nat) : Prop :=
  ∃ pre post, s = pre +:+ sub +:+ post ∧ String.length pre = i.

(** [i] is the first index at or after [lo] where [sub] occurs in [s]. *)
Definition first_occurrence (sub s : string) (lo i : nat) : Prop :=
  (lo ≤ i)%nat
  ∧ occurs sub s i
  ∧ ∀ j, (lo ≤ j < i)%nat → ¬ occurs sub s j.

(** The documentation block of a file text: from the first open marker to
    the end of the first close marker found at or after it, markers included;
    empty when there is no open marker, or no close marker from the open
    marker on. *)
Inductive doc_block (content : string) : string → Prop :=
| doc_block_no_open :
    (∀ i, ¬ occurs "/**" content i) →
    doc_block content ""
| doc_block_no_close (i : nat) :
    first_occurrence "/**" content 0 i →
    (∀ j, (i ≤ j)%nat → ¬ occurs "*/" content j) →
    doc_block content ""
| doc_block_found (i j : nat) (pre doc post : string) :
    first_occurrence "/**" content 0 i →
    first_occurrence "*/" content i j →
    content = pre +:+ doc +:+ post →
    String.length pre = i →
    String.length doc = (j + 2 - i)%nat →
    doc_block content doc.

(** What the words "the trimmed text strictly between the markers" describe:
    the text after the open marker and before the next close marker. *)
Definition text_between_markers (content : string) : string :=
  let start := find content "/**" 0 in
  let end_ := find content "*/" (start + 3) in
  if negb (start =? -1) && negb (end_ =? -1)
  then strip (slice content (start + 3) end_)
  else "".

(** A tool's answer reports an error, or a success. *)
Definition is_error (msg : string) : Prop := startswith msg "Error" = true.
Definition is_success (msg : string) : Prop :=
  startswith msg "Successfully" = true.

(** [n] is the part of [base] before its first dot, or all of [base] when
    there is no dot in it. *)
Definition before_first_dot (base n : string) : Prop :=
  contains n "." = false ∧ (base = n ∨ ∃ rest, base = n +:+ "." +:+ rest).


Definition prompt (worker : string * camel.ChatAgent tool) : string :=
  camel.msg_content (camel.system_message worker.2).


(** The worker that [_create_bean_agent] adds for a bean, [beans] being all
    the beans. *)
Definition worker_of (beans : list QuarkusBean) (bean : QuarkusBean)
  : string * camel.ChatAgent tool :=
  (name bean,
   camel.mkAgent
     (camel.make_assistant_message (name bean +:+ " Agent")
        (bean_content (name bean) (doc_comment bean)
           (Py.join ", " (other_beans beans bean))))
     get_tools).

Definition manager : string * camel.ChatAgent tool :=
  ("Manager",
   camel.mkAgent (camel.make_assistant_message "Manager Agent" manager_content)
     get_tools).

(** What a prompt can depend on: the name and the documentation block. *)
Definition name_and_doc (b : QuarkusBean) : string * string :=
  (name b, doc_comment b).

(** [worker_of], from names and documentation blocks alone. *)
Definition worker_of_names (all : list (string * string))
    (one : string * string) : string * camel.ChatAgent tool :=
  (one.1,
   camel.mkAgent
     (camel.make_assistant_message (one.1 +:+ " Agent")
        (bean_content one.1 one.2
           (Py.join ", "
              ((λ k, k.1 +:+ ": " +:+ k.2)
                 <$> filter (λ k, k.1 ≠ one.1) all))))
     get_tools).

#[global] Instance QuarkusBean_eq_dec : EqDecision QuarkusBean.
Proof. solve_decision. Defined.

(** The place [t] lies in the directory at the place [dir], at any depth. *)
Definition inside (dir t : list string) : Prop := dir `suffix_of` t.

(** A string can be handed to the system as a file name or an argument: it
    can be encoded and holds no NUL character. *)
Definition passes (w : Os.world) (a : string) : Prop :=
  Os.fsencodable w a = true ∧ contains a Os.NUL = false.

#[global] Instance passes_dec w a : Decision (passes w a).
Proof. unfold passes. apply _. Defined.

(** The test runner of the project is there to be started with the argument
    vector [argv]: the arguments can be handed to the system, the project
    root is a directory, and [x] is the place of the file [gradlew] in it. *)
Definition runner_at (w : Os.world) (argv : list string) (x : list string)
  : Prop :=
  Forall (passes w) argv
  ∧ ∃ d, Os.namei w PROJECT_ROOT = Return d
         ∧ Os.node_at (Os.disk w) d = Some Os.Dir
         ∧ Os.namei (Os.with_cwd w d) "./gradlew" = Return x
         ∧ ∃ text, Os.node_at (Os.disk w) x = Some (Os.File text).

(** The test runner is started with [argv] and runs to its end: it exits
    with the status [rc], having written [out] and [err]. *)
Definition started (w : Os.world) (argv : list string) (rc : Z)
    (out err : list byte) : Prop :=
  ∃ x, runner_at w argv x ∧ Os.exec w x argv = Os.Exited rc out err.

(** The two test tools: the argument vector that a tool runs, what the tool
    gives, and what it puts before the output of a run that failed. *)
Inductive test_tool (w : Os.world)
  : list string → result string → string → Prop :=
| all_bean_tests :
    test_tool w ["./gradlew"; "test"; "--tests=org.camelai.beans.*"]
      (run_all_bean_tests w) "Error running bean tests: "
| specific_bean_test (bean_name : string) :
    test_tool w
      ["./gradlew"; "test";
       "--tests=org.camelai.beans." +:+ bean_name +:+ "Test"]
      (run_specific_bean_test w bean_name)
      ("Error running test for " +:+ bean_name +:+ ": ").


(** The system takes the text for the file under the path: the file may be
    opened, the text can be encoded, and it gets through to the device. *)
Definition takes (w : Os.world) (path text : string) : Prop :=
  Os.may_open w path = Os.Allowed
  ∧ Os.encodable w text = true
  ∧ Os.device w path text = Os.Stored.

(** Every directory of [d] is a directory of [d']. *)
Definition keeps_dirs (d d' : gmap (list string) Os.node) : Prop :=
  ∀ q, Os.node_at d q = Some Os.Dir → Os.node_at d' q = Some Os.Dir.

(** The paths of the files that [_load_beans] reads: the files whose name
    ends in [.kt], directory by directory in the order of the walk. *)
Definition kt_paths (walk : list (string * list string * list string))
  : list string :=
  walk ≫= λ rdf,
    posixpath.join rdf.1.1 <$> filter (λ f, endswith f ".kt" = true) rdf.2.

(** ** Worlds to run the script in *)

(** Directories at a place and at every place above it. *)
Fixpoint dirs_down_to (p : list string) : list (list string * Os.node) :=
  match p with
  | [] => []
  | _ :: q => (p, Os.Dir) :: dirs_down_to q
  end.

Definition project_place : list string := ["encapt-project"; "srv"].

Definition beans_place : list string :=
  ["beans"; "camelai"; "org"; "kotlin"; "main"; "src"] ++ project_place.

(** A test runner that passes when asked for all the tests and fails when
    asked for one. *)
Definition gradlew (x argv : list string) : Os.launch :=
  if bool_decide (argv = ["./gradlew"; "test"; "--tests=org.camelai.beans.*"])
  then Os.Exited 0 (String.list_byte_of_string "BUILD SUCCESSFUL") []
  else Os.Exited 1 (String.list_byte_of_string "BUILD FAILED")
         (String.list_byte_of_string "No tests found for given includes").

(** The encoding ASCII: no character above its range has bytes, and only
    bytes in its range are read. *)
Definition ascii_only (c : ascii) : bool := false.

Definition ascii_decode (data : list byte) : option string :=
  if forallb (λ b, (Byte.to_N b <? 128)%N) data
  then Some (String.string_of_list_byte data)
  else None.

(** A system that lets every file be opened and every text through. *)
Definition always_open (path : string) : Os.opening := Os.Allowed.
Definition sound_device (path text : string) : Os.stored := Os.Stored.

(** A world of ASCII with a sound device, given its working directory, its
    disk and what its programs do. *)
Definition plain_world (cwd : list string)
    (disk : gmap (list string) Os.node)
    (exec : list string → list string → Os.launch) : Os.world :=
  Os.mkWorld cwd disk exec ascii_only ascii_only ascii_decode
    always_open sound_device.

(** Nothing on the disk. *)
Definition empty_world : Os.world := plain_world [] ∅ gradlew.

(** A project with four source files: [A.b.kt], [a/Foo.kt], [b/Foo.kt] and
    [b/Bar.KT]; the process runs in [/srv]. *)
Definition project_disk : gmap (list string) Os.node :=
  list_to_map
    (dirs_down_to ("a" :: beans_place)
     ++ dirs_down_to ("b" :: beans_place)
     ++ [("gradlew" :: project_place, Os.File "#!/bin/sh");
         ("A.b.kt" :: beans_place, Os.File "class A");
         ("Foo.kt" :: "a" :: beans_place,
          Os.File "/** first */ class Foo");
         ("Foo.kt" :: "b" :: beans_place,
          Os.File "/** second */ class Foo");
         ("Bar.KT" :: "b" :: beans_place, Os.File "class Bar")]).

Definition project_world : Os.world :=
  plain_world ["srv"] project_disk gradlew.

(** The same project where [gradlew] may not be executed, and where its
    output is not ASCII. *)
Definition locked_world : Os.world :=
  plain_world ["srv"] project_disk
    (λ x argv, Os.Refused 13 "Permission denied").

Definition garbled_world : Os.world :=
  plain_world ["srv"] project_disk
    (λ x argv, Os.Exited 0 [Byte.xff] []).

(** The units of [project_world], in the order they are loaded. *)
Definition unit_A : QuarkusBean :=
  mkBean "./encapt-project/src/main/kotlin/org/camelai/beans/A.b.kt"
    "A" "class A" "".

Definition unit_Foo_b : QuarkusBean :=
  mkBean "./encapt-project/src/main/kotlin/org/camelai/beans/b/Foo.kt"
    "Foo" "/** second */ class Foo" "/** second */".

Definition unit_Foo_a : QuarkusBean :=
  mkBean "./encapt-project/src/main/kotlin/org/camelai/beans/a/Foo.kt"
    "Foo" "/** first */ class Foo" "/** first */".

Definition project_units : list QuarkusBean :=
  [unit_A; unit_Foo_b; unit_Foo_a].




(** * Properties *)

(** What the script does in a given world is found by running it. *)
Ltac by_running := vm_compute; reflexivity.

(** ** Strings *)

Section string_facts.

Implicit Types s t u pre post sub : string.
Implicit Types n m k i j : nat.

Local Open Scope nat_scope.

Lemma str_app_nil_l s : "" +:+ s = s.
Proof. done. Qed.

Lemma str_app_cons c s t : String c s +:+ t = String c (s +:+ t).
Proof. done. Qed.

Lemma str_app_nil_r s : s +:+ "" = s.
Proof. induction s as [|c s IH]; [done|]. by rewrite str_app_cons, IH. Qed.

Lemma str_app_assoc s t u : (s +:+ t) +:+ u = s +:+ t +:+ u.
Proof. induction s as [|c s IH]; [done|]. by rewrite !str_app_cons, IH. Qed.

Lemma str_app_length s t :
  String.length (s +:+ t) = String.length s + String.length t.
Proof.
  induction s as [|c s IH]; [done|]. rewrite str_app_cons. simpl. by rewrite IH.
Qed.

Lemma length_zero s : String.length s = 0 → s = "".
Proof. by destruct s. Qed.

Lemma substring_length s : ∀ n m,
  String.length (String.substring n m s) = Nat.min m (String.length s - n).
Proof.
  induction s as [|c s IH]; intros [|n] [|m]; simpl; try done.
  all: rewrite IH; lia.
Qed.

Lemma substring_decomp s : ∀ n m,
  n + m ≤ String.length s →
  ∃ pre post,
    s = pre +:+ String.substring n m s +:+ post ∧ String.length pre = n.
Proof.
  induction s as [|c s IH]; intros n m Hle; simpl in Hle.
  - assert (n = 0) as -> by lia. assert (m = 0) as -> by lia.
    by exists "", "".
  - destruct n as [|n].
    + destruct m as [|m].
      * by exists "", (String c s).
      * destruct (IH 0 m) as (pre & post & Heq & Hlen); [lia|].
        apply length_zero in Hlen as ->. rewrite str_app_nil_l in Heq.
        exists "", post. rewrite str_app_nil_l. simpl.
        by rewrite str_app_cons, <-Heq.
    + destruct (IH n m) as (pre & post & Heq & Hlen); [lia|].
      exists (String c pre), post.
      replace (String.substring (S n) m (String c s))
        with (String.substring n m s) by (by destruct m).
      rewrite str_app_cons, <-Heq. simpl. by rewrite Hlen.
Qed.

Lemma substring_app_skip pre t : ∀ m,
  String.substring (String.length pre) m (pre +:+ t)
  = String.substring 0 m t.
Proof.
  induction pre as [|c pre IH]; intros m; [done|].
  rewrite str_app_cons. simpl. rewrite <-IH. by destruct m.
Qed.

Lemma substring_app_take sub post :
  String.substring 0 (String.length sub) (sub +:+ post) = sub.
Proof.
  induction sub as [|c sub IH].
  - rewrite str_app_nil_l. by destruct post.
  - rewrite str_app_cons. simpl. by rewrite IH.
Qed.

(** [occurs] is what the Standard Library's [index] speaks about. *)
Lemma occurs_substring sub s i :
  occurs sub s i → String.substring i (String.length sub) s = sub.
Proof.
  intros (pre & post & -> & <-).
  by rewrite substring_app_skip, substring_app_take.
Qed.

Lemma substring_occurs sub s i :
  sub ≠ "" →
  String.substring i (String.length sub) s = sub → occurs sub s i.
Proof.
  intros Hne Hsub.
  assert (i + String.length sub ≤ String.length s) as Hle.
  { pose proof (substring_length s i (String.length sub)) as Hlen.
    rewrite Hsub in Hlen.
    assert (0 < String.length sub) by (destruct sub; simpl; [done|lia]).
    lia. }
  destruct (substring_decomp s i (String.length sub) Hle)
    as (pre & post & Heq & Hlen).
  rewrite Hsub in Heq. by exists pre, post.
Qed.

Lemma occurs_bound sub s i :
  occurs sub s i → i + String.length sub ≤ String.length s.
Proof.
  intros (pre & post & -> & <-). rewrite !str_app_length. lia.
Qed.

Lemma index_ge sub s : ∀ n i, String.index n sub s = Some i → n ≤ i.
Proof.
  induction s as [|c s IH]; intros [|n] i; simpl; try lia; try done.
  destruct (String.index n sub s) as [k|] eqn:Hk; [|done].
  intros [= <-]. apply IH in Hk. lia.
Qed.

Lemma index_first sub s n i :
  sub ≠ "" → String.index n sub s = Some i → first_occurrence sub s n i.
Proof.
  intros Hne Hi. split; [by eapply index_ge|]. split.
  - apply substring_occurs; [done|]. by eapply String.index_correct1.
  - intros j [Hlo Hhi] Hocc%occurs_substring.
    by eapply (String.index_correct2 n i sub s Hi j).
Qed.

Lemma index_none sub s n j :
  sub ≠ "" → String.index n sub s = None → n ≤ j → ¬ occurs sub s j.
Proof.
  intros Hne Hi Hle Hocc%occurs_substring.
  by eapply (String.index_correct3 n j sub s Hi).
Qed.

Lemma first_occurrence_unique sub s lo i j :
  first_occurrence sub s lo i → first_occurrence sub s lo j → i = j.
Proof.
  intros (Hi & Hoi & Hmi) (Hj & Hoj & Hmj).
  destruct (Nat.lt_trichotomy i j) as [Hlt|[->|Hlt]]; [|done|].
  - by destruct (Hmj i).
  - by destruct (Hmi j).
Qed.

Lemma substring_substring s n m a b :
  a + b ≤ m →
  String.substring a b (String.substring n m s)
  = String.substring (n + a) b s.
Proof.
  intros Hle. apply String.get_correct. intros k.
  destruct (decide (k < b)) as [Hk|Hk].
  - rewrite !String.substring_correct1 by lia. f_equal. lia.
  - by rewrite !String.substring_correct2 by lia.
Qed.

Lemma substring_get sub s i k :
  String.substring i (String.length sub) s = sub →
  k < String.length sub →
  String.get (i + k) s = String.get k sub.
Proof.
  intros Hsub Hk.
  transitivity (String.get k (String.substring i (String.length sub) s));
    [|by rewrite Hsub].
  rewrite String.substring_correct1 by done. f_equal. lia.
Qed.

Lemma lstrip_id c s : isspace c = false → lstrip (String c s) = String c s.
Proof. intros Hc. simpl. by rewrite Hc. Qed.

Lemma rstrip_id s c :
  String.get (String.length s - 1) s = Some c →
  isspace c = false →
  rstrip s = s.
Proof.
  intros Hget Hc. induction s as [|a s IH]; [done|].
  destruct s as [|b s].
  - simpl in *. injection Hget as ->. by rewrite Hc.
  - change (rstrip (String a (String b s)))
      with (match rstrip (String b s) with
            | "" => if isspace a then "" else String a ""
            | r => String a r
            end).
    rewrite IH; [done|].
    simpl in Hget |- *. by rewrite Nat.sub_0_r in *.
Qed.

(** Trimming leaves alone a text that begins and ends with characters
    that are not white space. *)
Lemma strip_id s c c' :
  String.get 0 s = Some c → isspace c = false →
  String.get (String.length s - 1) s = Some c' → isspace c' = false →
  strip s = s.
Proof.
  intros H0 Hc Hlast Hc'. unfold strip.
  destruct s as [|a s]; [done|]. injection H0 as ->.
  rewrite lstrip_id by done. by eapply rstrip_id.
Qed.

Lemma slice_nat s i j :
  i ≤ j ≤ String.length s →
  slice s (Z.of_nat i) (Z.of_nat j) = String.substring i (j - i) s.
Proof.
  intros [Hij Hj]. unfold slice, adjust, len.
  destruct (Z.ltb_spec (Z.of_nat i) 0) as [?|_]; [lia|].
  destruct (Z.ltb_spec (Z.of_nat j) 0) as [?|_]; [lia|].
  rewrite !Z.min_l by lia. f_equal; lia.
Qed.

Lemma substring_all s : String.substring 0 (String.length s) s = s.
Proof.
  pose proof (substring_app_take s "") as H. by rewrite str_app_nil_r in H.
Qed.

Lemma endswith_spec s suf :
  endswith s suf = true ↔ ∃ pre, s = pre +:+ suf.
Proof.
  unfold endswith. rewrite andb_true_iff, Nat.leb_le, String.eqb_eq. split.
  - intros [Hle Hsub].
    destruct (substring_decomp s (String.length s - String.length suf)
                (String.length suf) ltac:(lia))
      as (pre & post & Heq & Hpre).
    rewrite Hsub in Heq. exists pre.
    assert (post = "") as ->; [|by rewrite str_app_nil_r in Heq].
    apply length_zero. apply (f_equal String.length) in Heq.
    rewrite !str_app_length in Heq. lia.
  - intros [pre ->]. rewrite str_app_length. split; [lia|].
    replace (String.length pre + String.length suf - String.length suf)
      with (String.length pre) by lia.
    by rewrite substring_app_skip, substring_all.
Qed.

Lemma endswith_app s t suf :
  endswith t suf = true → endswith (s +:+ t) suf = true.
Proof.
  rewrite !endswith_spec. intros [pre ->].
  exists (s +:+ pre). by rewrite str_app_assoc.
Qed.

Lemma contains_app s t c :
  contains (s +:+ t) c = contains s c || contains t c.
Proof.
  induction s as [|a s IH]; [done|].
  rewrite str_app_cons. simpl. by rewrite IH, orb_assoc.
Qed.

Lemma split_not_nil s c : split s c ≠ [].
Proof.
  destruct s as [|a s]; simpl; [done|].
  destruct (Ascii.eqb a c); [done|]. by destruct (split s c).
Qed.

(** [s.split('.')[0]] is the part of [s] before its first dot. *)
Lemma first_split_before_dot s :
  before_first_dot s (first (split s ".")).
Proof.
  induction s as [|a s (IHc & IHs)]; [by split; [|left]|]. simpl.
  destruct (Ascii.eqb_spec a ".") as [->|Ha].
  - split; [done|]. right. by exists s.
  - pose proof (split_not_nil s ".") as Hnil.
    destruct (split s ".") as [|w ws]; [done|]. simpl in *. split.
    + change (Ascii.eqb a "." || contains w "." = false).
      rewrite IHc. by apply Ascii.eqb_neq in Ha as ->.
    + destruct IHs as [->|[rest ->]]; [by left|]. right. by exists rest.
Qed.

(** When the stem of [stem.ext] has no dot in it, the part before the first
    dot is the stem. *)
Lemma before_first_dot_stem base t stem ext :
  before_first_dot base t →
  base = stem +:+ "." +:+ ext →
  contains stem "." = false →
  t = stem.
Proof.
  intros [Ht Hbase] -> Hstem. destruct Hbase as [<-|[rest Heq]].
  { rewrite contains_app in Ht. simpl in Ht.
    by rewrite orb_true_r in Ht. }
  revert stem Hstem Heq.
  induction t as [|a t IH]; intros [|b stem] Hstem Heq; [done|..].
  - change (String b (stem +:+ "." +:+ ext) = String "." rest) in Heq.
    injection Heq as Hb _. subst b. by simpl in Hstem.
  - change (String "." ext = String a (t +:+ "." +:+ rest)) in Heq.
    injection Heq as Ha _. subst a. by simpl in Ht.
  - change (String b (stem +:+ "." +:+ ext)
            = String a (t +:+ "." +:+ rest)) in Heq.
    injection Heq as -> Heq.
    simpl in Ht, Hstem. apply orb_false_iff in Ht as [_ Ht].
    apply orb_false_iff in Hstem as [_ Hstem].
    f_equal. by apply IH.
Qed.

End string_facts.

(** ** Paths *)

Section path_facts.

Local Open Scope nat_scope.

Lemma rfind_from_absent s :
  contains s "/" = false → rfind_from s "/" = None.
Proof.
  induction s as [|a s IH]; [done|].
  intros [Ha Hs]%orb_false_iff. cbn [rfind_from]. rewrite (IH Hs).
  change (String.prefix "/" (String a s))
    with (if Ascii.ascii_dec "/" a then String.prefix "" s else false).
  by destruct (Ascii.ascii_dec "/" a) as [<-|].
Qed.

Lemma rfind_from_last pre s :
  contains s "/" = false →
  rfind_from (pre +:+ "/" +:+ s) "/" = Some (String.length pre).
Proof.
  intros Hs. induction pre as [|a pre IH].
  - rewrite str_app_nil_l, str_app_cons, str_app_nil_l. simpl.
    rewrite (rfind_from_absent s Hs). by destruct s.
  - rewrite str_app_cons. simpl. by rewrite IH.
Qed.

Lemma slice_from_app pre s :
  slice_from (pre +:+ s) (Z.of_nat (String.length pre)) = s.
Proof.
  unfold slice_from, len. rewrite slice_nat by (rewrite str_app_length; lia).
  rewrite substring_app_skip, str_app_length.
  replace (String.length pre + String.length s - String.length pre)
    with (String.length s) by lia.
  apply substring_all.
Qed.

(** The base name of a path is what follows its last slash. *)
Lemma basename_after_slash pre s :
  contains s "/" = false →
  posixpath.basename (pre +:+ "/" +:+ s) = s.
Proof.
  intros Hs. unfold posixpath.basename, rfind.
  rewrite (rfind_from_last pre s Hs).
  replace (Z.of_nat (String.length pre) + 1)%Z
    with (Z.of_nat (String.length (pre +:+ "/")))
    by (rewrite str_app_length; simpl; lia).
  rewrite <-(str_app_assoc pre "/" s). apply slice_from_app.
Qed.

Lemma basename_no_slash s :
  contains s "/" = false → posixpath.basename s = s.
Proof.
  intros Hs. unfold posixpath.basename, rfind.
  rewrite (rfind_from_absent s Hs). apply (slice_from_app "" s).
Qed.

Lemma startswith_slash s :
  contains s "/" = false → startswith s "/" = false.
Proof.
  destruct s as [|a s]; [done|]. intros Hs. unfold startswith.
  change (String.prefix "/" (String a s))
    with (if Ascii.ascii_dec "/" a then String.prefix "" s else false).
  destruct (Ascii.ascii_dec "/" a) as [<-|]; [|done]. by simpl in Hs.
Qed.

(** The file path the loader makes from a directory and a file name has
    the file name for its base name. *)
Lemma basename_join root file :
  contains file "/" = false →
  posixpath.basename (posixpath.join root file) = file.
Proof.
  intros Hf. unfold posixpath.join. rewrite (startswith_slash file Hf).
  destruct (String.eqb_spec root "") as [->|_]; simpl.
  { by apply basename_no_slash. }
  destruct (endswith root "/") eqn:Hr.
  - apply endswith_spec in Hr as [pre ->]. rewrite str_app_assoc.
    by apply basename_after_slash.
  - by apply basename_after_slash.
Qed.

(** A joined path ends the way its last part ends. *)
Lemma endswith_join root file suf :
  endswith file suf = true →
  endswith (posixpath.join root file) suf = true.
Proof.
  intros Hf. unfold posixpath.join.
  destruct (startswith file "/"); [done|].
  destruct (_ || _).
  - by apply endswith_app.
  - by apply endswith_app, endswith_app.
Qed.

End path_facts.

Lemma startswith_app pre s : startswith (pre +:+ s) pre = true.
Proof.
  unfold startswith. apply String.prefix_correct.
  apply substring_app_take.
Qed.

(** ** The documentation block *)

Section doc_comment.

Local Open Scope nat_scope.

(** The close marker found from the open marker on starts at least two
    characters later: it can share the second [*] of the open marker, as in
    [/**/], and nothing more. *)
Lemma close_after_open s i j :
  occurs "/**" s i → occurs "*/" s j → i ≤ j → i + 2 ≤ j.
Proof.
  intros Ho%occurs_substring Hc%occurs_substring Hij.
  pose proof (substring_get "/**" s i 0 Ho) as H0.
  pose proof (substring_get "/**" s i 2 Ho) as H2.
  pose proof (substring_get "*/" s j 0 Hc) as K0.
  pose proof (substring_get "*/" s j 1 Hc) as K1.
  simpl in H0, H2, K0, K1.
  specialize (H0 ltac:(lia)). specialize (H2 ltac:(lia)).
  specialize (K0 ltac:(lia)). specialize (K1 ltac:(lia)).
  destruct (decide (j = i)) as [->|].
  { rewrite Nat.add_0_r in *. congruence. }
  destruct (decide (j = i + 1)) as [->|]; [|lia].
  replace (i + 1 + 1) with (i + 2) in K1 by lia. congruence.
Qed.

(** What [extract_doc_comment] computes in each of its three cases. *)
Lemma extract_doc_comment_cases content :
  (String.index 0 "/**" content = None ∧ extract_doc_comment content = "")
  ∨ (∃ i, String.index 0 "/**" content = Some i
          ∧ String.index i "*/" content = None
          ∧ extract_doc_comment content = "")
  ∨ (∃ i j, String.index 0 "/**" content = Some i
            ∧ String.index i "*/" content = Some j
            ∧ i + 2 ≤ j ∧ j + 2 ≤ String.length content
            ∧ extract_doc_comment content
              = String.substring i (j + 2 - i) content).
Proof.
  unfold extract_doc_comment, find.
  change (adjust 0%Z (len content)) with 0%Z. change (Z.to_nat 0) with 0.
  destruct (String.index 0 "/**" content) as [i|] eqn:Hi; [|by left].
  right.
  assert (adjust (Z.of_nat i) (len content) = Z.of_nat i) as ->.
  { unfold adjust. destruct (Z.ltb_spec (Z.of_nat i) 0); [lia|done]. }
  rewrite Nat2Z.id.
  destruct (String.index i "*/" content) as [j|] eqn:Hj.
  - right. exists i, j.
    pose proof (index_first "/**" content 0 i ltac:(done) Hi)
      as (_ & Ho & _).
    pose proof (index_first "*/" content i j ltac:(done) Hj)
      as (Hij & Hc & _).
    pose proof (close_after_open content i j Ho Hc Hij) as Hlt.
    pose proof (occurs_bound _ _ _ Hc) as Hb. simpl in Hb.
    repeat split; try done.
    destruct (Z.eqb_spec (Z.of_nat i) (-1)) as [?|_]; [lia|].
    destruct (Z.eqb_spec (Z.of_nat j) (-1)) as [?|_]; [lia|].
    simpl. replace (Z.of_nat j + 2)%Z with (Z.of_nat (j + 2)) by lia.
    rewrite slice_nat by lia.
    apply occurs_substring in Ho, Hc.
    eapply (strip_id _ "/"%char "/"%char); [|done| |done].
    + pose proof (substring_get "/**" content i 0 Ho ltac:(simpl; lia)) as E.
      rewrite Nat.add_0_r in E.
      rewrite String.substring_correct1 by lia. by rewrite Nat.add_0_l, E.
    + pose proof (substring_get "*/" content j 1 Hc ltac:(simpl; lia)) as E.
      rewrite substring_length.
      replace (Nat.min (j + 2 - i) (String.length content - i) - 1)
        with (j + 1 - i) by lia.
      rewrite String.substring_correct1 by lia.
      replace (j + 1 - i + i) with (j + 1) by lia. by rewrite E.
  - left. exists i. repeat split; try done.
    destruct (Z.eqb_spec (Z.of_nat i) (-1)); [lia|]. done.
Qed.

Lemma doc_block_found_substring content i j pre doc post :
  content = pre +:+ doc +:+ post →
  String.length pre = i →
  String.length doc = j + 2 - i →
  doc = String.substring i (j + 2 - i) content.
Proof.
  intros -> <- <-. by rewrite substring_app_skip, substring_app_take.
Qed.

(** C1 (as amended).  Extraction returns exactly the documentation block:
    the text from the first open marker to the end of the first close
    marker found at or after it, with both markers kept and nothing before
    or after; and the empty string when there is no open marker or no close
    marker from the open marker on, which covers a close marker that only
    comes before the open marker.  Trimming changes nothing, the block
    beginning and ending with a slash. *)
Theorem extract_doc_comment_is_doc_block (content doc : string) :
  doc_block content doc ↔ extract_doc_comment content = doc.
Proof.
  pose proof (extract_doc_comment_cases content) as Hcases. split.
  - intros Hblock.
    destruct Hcases as [[Hi ->]|[(i & Hi & Hj & ->)|(i & j & Hi & Hj & Hc)]].
    + destruct Hblock as [?|? (_ & Ho & _) ?|? ? ? ? ? (_ & Ho & _)]; try done.
      all: exfalso; eapply (index_none "/**" content 0);
        [done|exact Hi| |exact Ho]; lia.
    + destruct Hblock as [?|? ? ?|i' j' pre doc post Ho' Hc']; try done.
      pose proof (index_first "/**" content 0 i ltac:(done) Hi) as Ho.
      rewrite (first_occurrence_unique _ _ _ _ _ Ho' Ho) in Hc'.
      destruct Hc' as (Hle & Hc' & _).
      by destruct (index_none "*/" content i j' ltac:(done) Hj Hle Hc').
    + destruct Hc as (Hij & Hlen & ->).
      pose proof (index_first "/**" content 0 i ltac:(done) Hi) as Ho.
      pose proof (index_first "*/" content i j ltac:(done) Hj) as Hc.
      destruct Hblock as [Hno|i' Ho' Hno|i' j' pre doc post Ho' Hc' Heq Hp Hd].
      * destruct Ho as (_ & Ho & _). by destruct (Hno i).
      * rewrite (first_occurrence_unique _ _ _ _ _ Ho' Ho) in Hno.
        destruct Hc as (Hle & Hc & _). by destruct (Hno j).
      * pose proof (first_occurrence_unique _ _ _ _ _ Ho' Ho) as ->.
        pose proof (first_occurrence_unique _ _ _ _ _ Hc' Hc) as ->.
        symmetry. by eapply doc_block_found_substring.
  - intros <-.
    destruct Hcases as [[Hi ->]|[(i & Hi & Hj & ->)|(i & j & Hi & Hj & Hc)]].
    + apply doc_block_no_open. intros i.
      apply (index_none "/**" content 0 i); [done..|lia].
    + apply (doc_block_no_close _ i); [by apply index_first|].
      intros j. by apply (index_none "*/" content i j).
    + destruct Hc as (Hij & Hlen & ->).
      destruct (substring_decomp content i (j + 2 - i) ltac:(lia))
        as (pre & post & Heq & Hpre).
      apply (doc_block_found _ i j pre _ post); try done.
      * by apply index_first.
      * by apply index_first.
      * rewrite substring_length. lia.
Qed.

(** C1, as it was stated, fails: the markers are returned too.  The text
    strictly between the markers of ["a/** doc */b"] is ["doc"], and
    extraction returns ["/** doc */"]. *)
Lemma extract_doc_comment_keeps_markers :
  text_between_markers "a/** doc */b" = "doc"
  ∧ extract_doc_comment "a/** doc */b" = "/** doc */"
  ∧ extract_doc_comment "a/** doc */b"
    ≠ text_between_markers "a/** doc */b".
Proof. by vm_compute. Qed.

(** C9.  A documentation block that is not empty begins with the open
    marker and ends with the close marker. *)
Theorem extract_doc_comment_has_markers (content : string) :
  extract_doc_comment content ≠ "" →
  startswith (extract_doc_comment content) "/**" = true
  ∧ endswith (extract_doc_comment content) "*/" = true.
Proof.
  intros Hne.
  destruct (extract_doc_comment_cases content)
    as [[_ E]|[(i & _ & _ & E)|(i & j & Hi & Hj & Hij & Hlen & ->)]];
    [done..|].
  apply String.index_correct1 in Hi, Hj. simpl in Hi, Hj. split.
  - unfold startswith. apply String.prefix_correct.
    rewrite substring_substring by (simpl; lia). by rewrite Nat.add_0_r.
  - unfold endswith. rewrite substring_length.
    replace (Nat.min (j + 2 - i) (String.length content - i))
      with (j + 2 - i) by lia.
    apply andb_true_iff. split; [apply Nat.leb_le; simpl; lia|].
    apply String.eqb_eq. simpl String.length.
    rewrite substring_substring by lia.
    by replace (i + (j + 2 - i - 2)) with j by lia.
Qed.

Lemma extract_doc_comment_has_markers_witness :
  startswith (extract_doc_comment "a/** doc */b") "/**" = true
  ∧ endswith (extract_doc_comment "a/** doc */b") "*/" = true.
Proof.
  apply (extract_doc_comment_has_markers "a/** doc */b"). by vm_compute.
Defined.

End doc_comment.

(** ** The file system *)

Section fs_facts.

Implicit Types d : gmap (list string) Os.node.
Implicit Types cur t q : list string.
Implicit Types w : Os.world.

Lemma node_at_weaken d d' q x :
  d ⊆ d' → Os.node_at d q = Some x → Os.node_at d' q = Some x.
Proof. destruct q; [done|]. intros Hsub Hq. by eapply lookup_weaken. Qed.

Lemma subseteq_keeps_dirs d d' : d ⊆ d' → keeps_dirs d d'.
Proof. intros Hsub q. by apply node_at_weaken. Qed.

Lemma node_at_insert d t x :
  t ≠ [] → Os.node_at (<[t := x]> d) t = Some x.
Proof. destruct t; [done|]. intros _. apply lookup_insert_eq. Qed.

Lemma node_at_insert_ne d t q x :
  t ≠ q → Os.node_at (<[t := x]> d) q = Os.node_at d q.
Proof. destruct q; [done|]. intros Hne. by apply lookup_insert_ne. Qed.

(** Replacing what is not a directory keeps the directories. *)
Lemma insert_keeps_dirs d t x :
  Os.node_at d t ≠ Some Os.Dir → keeps_dirs d (<[t := x]> d).
Proof.
  intros Ht q Hq. rewrite node_at_insert_ne; [done|]. by intros ->.
Qed.

Lemma enter_keeps d d' cur c p t :
  keeps_dirs d d' →
  Os.enter d cur c p = Return t → Os.enter d' cur c p = Return t.
Proof.
  intros Hk. unfold Os.enter.
  destruct (Os.node_at d cur) as [[]|] eqn:Hcur; try done.
  by rewrite (Hk _ Hcur).
Qed.

(** A path that leads somewhere keeps leading there when directories are
    only added. *)
Lemma lookup_from_keeps d d' cs p : ∀ cur t,
  keeps_dirs d d' →
  Os.lookup_from d cur cs p = Return t →
  Os.lookup_from d' cur cs p = Return t.
Proof.
  induction cs as [|c cs IH]; intros cur t Hk; [done|].
  cbn [Os.lookup_from].
  destruct (Os.enter d cur c p) as [cur'|] eqn:Hc; [|done].
  rewrite (enter_keeps _ _ _ _ _ _ Hk Hc). cbn. by apply IH.
Qed.

Lemma fsconvert_Return w s : Os.fsconvert w s = Return () ↔ passes w s.
Proof.
  unfold Os.fsconvert, passes.
  destruct (Os.fsencodable w s), (contains s Os.NUL); cbn;
    intuition congruence.
Qed.

(** What [fsconvert] raises is no [OSError]. *)
Lemma fsconvert_Raise w s e :
  Os.fsconvert w s = Raise e →
  e = UnicodeEncodeError ∨ e = ValueError "embedded null byte".
Proof.
  unfold Os.fsconvert.
  destruct (Os.fsencodable w s), (contains s Os.NUL); cbn;
    intuition congruence.
Qed.

Lemma namei_Return w p t :
  Os.namei w p = Return t ↔
  passes w p ∧ p ≠ ""
  ∧ Os.lookup_from (Os.disk w) (Os.origin w p) (split p "/") p = Return t.
Proof.
  unfold Os.namei. rewrite <-fsconvert_Return.
  destruct (Os.fsconvert w p) as [[]|e]; cbn [mbind result_bind bind].
  - destruct (String.eqb_spec p ""); intuition congruence.
  - intuition congruence.
Qed.

Lemma namei_passes w p t : Os.namei w p = Return t → passes w p.
Proof. by intros (? & _)%namei_Return. Qed.

Lemma namei_keeps w d' p t :
  keeps_dirs (Os.disk w) d' →
  Os.namei w p = Return t → Os.namei (Os.with_disk w d') p = Return t.
Proof.
  intros Hk (Hpass & Hp & Hlook)%namei_Return. apply namei_Return.
  split; [done|]. split; [done|]. by apply (lookup_from_keeps (Os.disk w)).
Qed.

Lemma lookup_from_OSError d cs p : ∀ cur e,
  Os.lookup_from d cur cs p = Raise e → ∃ n m f, e = OSError n m f.
Proof.
  induction cs as [|c cs IH]; intros cur e; [done|].
  cbn [Os.lookup_from]. unfold Os.enter.
  destruct (Os.node_at d cur) as [[]|].
  - cbn [mbind result_bind bind]. intros [= <-]. by eexists _, _, _.
  - repeat case_bool_decide; cbn [mbind result_bind bind]; apply IH.
  - cbn [mbind result_bind bind]. intros [= <-]. by eexists _, _, _.
Qed.

(** What [namei] raises for a path that can be handed to the system is an
    [OSError]. *)
Lemma namei_OSError w p e :
  passes w p →
  Os.namei w p = Raise e → ∃ n m f, e = OSError n m f.
Proof.
  intros Hpass%fsconvert_Return. unfold Os.namei. rewrite Hpass.
  cbn [mbind result_bind bind]. destruct (String.eqb p "").
  - intros [= <-]. by eexists _, _, _.
  - apply lookup_from_OSError.
Qed.

(** What [namei] raises for a path that cannot be handed to the system. *)
Lemma namei_not_passes w p :
  ¬ passes w p →
  Os.namei w p
  = Raise (if Os.fsencodable w p then ValueError "embedded null byte"
           else UnicodeEncodeError).
Proof.
  unfold passes, Os.namei, Os.fsconvert.
  destruct (Os.fsencodable w p), (contains p Os.NUL); cbn;
    intuition congruence.
Qed.

Lemma open_w_Return w p t w' :
  Os.open_w w p = (Return t, w') ↔
  Os.namei w p = Return t
  ∧ Os.node_at (Os.disk w) t ≠ Some Os.Dir
  ∧ Os.may_open w p = Os.Allowed
  ∧ w' = Os.with_disk w (<[t := Os.File ""]> (Os.disk w)).
Proof.
  unfold Os.open_w.
  destruct (Os.namei w p) as [t0|e]; [|intuition congruence].
  destruct (Os.node_at (Os.disk w) t0) as [[]|] eqn:Ht0,
    (Os.may_open w p); split; try done.
  all: try (intros (? & ? & ? & _); congruence).
  all: try (intros [= <- <-]; by rewrite Ht0).
  all: intros ([= <-] & _ & _ & ->); done.
Qed.

(** When [open] fails the disk is as it was. *)
Lemma open_w_Raise w p e w' : Os.open_w w p = (Raise e, w') → w' = w.
Proof.
  unfold Os.open_w.
  destruct (Os.namei w p) as [t0|e0]; [|by intros [= _ <-]].
  destruct (Os.node_at (Os.disk w) t0) as [[]|],
    (Os.may_open w p); by intros [= _ <-].
Qed.

(** What [open] raises for a path that can be handed to the system is an
    [OSError]. *)
Lemma open_w_OSError w p e w' :
  passes w p →
  Os.open_w w p = (Raise e, w') → ∃ n m f, e = OSError n m f.
Proof.
  intros Hpass. unfold Os.open_w.
  destruct (Os.namei w p) as [t0|e0] eqn:Hp.
  - destruct (Os.node_at (Os.disk w) t0) as [[]|],
      (Os.may_open w p); intros [= <- _]; by eexists _, _, _.
  - intros [= <- _]. by eapply namei_OSError.
Qed.

Lemma with_disk_with_disk w d d' :
  Os.with_disk (Os.with_disk w d) d' = Os.with_disk w d'.
Proof. done. Qed.

(** The ways of [write_text]: the file is not opened; or it is, at the
    place [t], and the text cannot be encoded, or is stored, or is lost on
    the way. *)
Lemma write_text_cases w p text :
  (∃ e, Os.open_w w p = (Raise e, w)
        ∧ Os.write_text w p text = (Raise e, w))
  ∨ ∃ t, Os.namei w p = Return t
         ∧ Os.node_at (Os.disk w) t ≠ Some Os.Dir
         ∧ Os.may_open w p = Os.Allowed
         ∧ ((Os.encodable w text = false
             ∧ Os.write_text w p text
               = (Raise UnicodeEncodeError,
                  Os.with_disk w (<[t := Os.File ""]> (Os.disk w))))
            ∨ (Os.encodable w text = true
               ∧ Os.device w p text = Os.Stored
               ∧ Os.write_text w p text
                 = (Return (),
                    Os.with_disk w
                      (<[t := Os.File (universal_newlines text)]>
                         (Os.disk w))))
            ∨ (∃ n m kept,
                 Os.encodable w text = true
                 ∧ Os.device w p text = Os.Failed n m kept
                 ∧ Os.write_text w p text
                   = (Raise (OSError n m None),
                      Os.with_disk w (<[t := Os.File kept]> (Os.disk w))))).
Proof.
  unfold Os.write_text.
  destruct (Os.open_w w p) as [[t|e] w1] eqn:Hopen.
  - right. apply open_w_Return in Hopen as (Hp & Ht & Hmay & ->).
    exists t. split; [done|]. split; [done|]. split; [done|].
    unfold Os.write_close.
    change (Os.encodable (Os.with_disk w _) text) with (Os.encodable w text).
    change (Os.device (Os.with_disk w _) p text) with (Os.device w p text).
    cbn [Os.disk Os.with_disk].
    destruct (Os.encodable w text); cbn [negb]; [|by left].
    right. destruct (Os.device w p text) as [|n m kept];
      rewrite with_disk_with_disk, insert_insert_eq; [by left|].
    right. by exists n, m, kept.
  - left. pose proof (open_w_Raise _ _ _ _ Hopen) as ->. by exists e.
Qed.


(** The subdirectories that [walk_from] descends into are places of the
disk. *)
Lemma scandir_place d cur c x :
  (c, x) ∈ Os.scandir d cur → d !! (c :: cur) = Some x.
Proof.
  unfold Os.scandir. intros ([k y] & Hin & Hsome)%list_elem_of_omap.
  apply elem_of_map_to_list in Hin. cbn in Hsome.
  destruct k as [|c' k]; [done|]. case_bool_decide; [|done].
  by simplify_eq.
Qed.

Lemma place_depth d q x : d !! q = Some x → (length q ≤ Os.depth d)%nat.
Proof.
  intros Hq. unfold Os.depth. apply max_list_elem_of_le.
  apply list_elem_of_fmap. exists q. split; [done|].
  apply list_elem_of_fmap. exists (q, x). split; [done|].
  by apply elem_of_map_to_list.
Qed.

(** The fuel that [walk] gives is enough: with more of it the walk is the
same.  Below a place [cur] there are at most [depth d - length cur] levels
of directories. *)
Lemma walk_from_fuel d : ∀ n fuel top cur,
  (Os.depth d - length cur < n)%nat → (n ≤ fuel)%nat →
  Os.walk_from fuel d top cur = Os.walk_from n d top cur.
Proof.
  induction n as [|n IH]; intros fuel top cur Hdepth Hfuel; [lia|].
  destruct fuel as [|fuel]; [lia|]. cbn [Os.walk_from]. f_equal.
  apply Forall_bind_ext, Forall_forall. intros c Hc.
  apply list_elem_of_fmap in Hc as ([c' x] & -> & Hc).
  apply list_elem_of_filter in Hc as [_ Hc]. apply scandir_place in Hc.
  apply place_depth in Hc. cbn [length fst] in *.
  apply IH; cbn [length]; lia.
Qed.

Lemma walk_fuel w top t fuel :
  Os.namei w top = Return t →
  Os.node_at (Os.disk w) t = Some Os.Dir →
  (Os.depth (Os.disk w) < fuel)%nat →
  Os.walk_from fuel (Os.disk w) top t = Os.walk w top.
Proof.
  intros Ht Hdir Hfuel. unfold Os.walk. rewrite Ht, Hdir.
  apply walk_from_fuel; lia.
Qed.

End fs_facts.

(** ** The tool [write_file] *)

Section write_file_facts.

Implicit Types w : Os.world.

Lemma write_file_rejected w name content :
  endswith name ".kt" = false →
  write_file w name content = (Return "Error: Only .kt files are allowed.", w).
Proof. intros Hext. unfold write_file. by rewrite Hext. Qed.

Lemma write_file_kt w name content :
  endswith name ".kt" = true →
  write_file w name content
  = match Os.write_text w (posixpath.join BEANS_DIR name) content with
    | (Return _, w') =>
        (Return ("Successfully wrote content to " +:+ name), w')
    | (Raise (OSError n msg f), w') =>
        (Return ("Error writing to file: " +:+ Os.str n msg f), w')
    | (Raise e, w') => (Raise e, w')
    end.
Proof. intros Hext. unfold write_file. by rewrite Hext. Qed.

Lemma write_file_written w name content t :
  endswith name ".kt" = true →
  Os.namei w (posixpath.join BEANS_DIR name) = Return t →
  Os.node_at (Os.disk w) t ≠ Some Os.Dir →
  takes w (posixpath.join BEANS_DIR name) content →
  write_file w name content
  = (Return ("Successfully wrote content to " +:+ name),
     Os.with_disk w
       (<[t := Os.File (universal_newlines content)]> (Os.disk w))).
Proof.
  intros Hext Hp Ht (Hmay & Henc & Hdev). rewrite write_file_kt by done.
  destruct (write_text_cases w (posixpath.join BEANS_DIR name) content)
    as [(e & Hopen & _)
       |(t' & Hp' & _ & _ & [[Henc' _]|[(_ & _ & ->)|(n & m & k & _ & Hdev' & _)]])].
  - unfold Os.open_w in Hopen. rewrite Hp, Hmay in Hopen.
    by destruct (Os.node_at (Os.disk w) t) as [[]|].
  - congruence.
  - congruence.
  - congruence.
Qed.



(** C5.  Nothing but the ending of the name is looked at: wherever the
    path made of the units directory and the name leads, there the file is
    opened, and there the content is written when the system takes it;
    whatever the system does, no other place is touched.  The name may hold
    slashes and [..]; the place may lie outside the units directory, as it
    does for [../x.kt] and for an absolute name. *)
Theorem write_file_follows_joined_path w name content t :
  endswith name ".kt" = true →
  Os.namei w (posixpath.join BEANS_DIR name) = Return t →
  Os.node_at (Os.disk w) t ≠ Some Os.Dir →
  (takes w (posixpath.join BEANS_DIR name) content →
   write_file w name content
   = (Return ("Successfully wrote content to " +:+ name),
      Os.with_disk w
        (<[t := Os.File (universal_newlines content)]> (Os.disk w))))
  ∧ (∃ r w',
       write_file w name content = (r, w')
       ∧ (w' = w
          ∨ ∃ text,
              w' = Os.with_disk w (<[t := Os.File text]> (Os.disk w))))
  ∧ (∃ w0 name0 t0,
       endswith name0 ".kt" = true
       ∧ Os.namei w0 BEANS_DIR = Return beans_place
       ∧ Os.namei w0 (posixpath.join BEANS_DIR name0) = Return t0
       ∧ Os.node_at (Os.disk w0) t0 ≠ Some Os.Dir
       ∧ ¬ inside beans_place t0).
Proof.
  intros Hext Hp Ht. split; [by apply write_file_written|]. split.
  - rewrite write_file_kt by done.
    destruct (write_text_cases w (posixpath.join BEANS_DIR name) content)
      as [(e & _ & ->)
         |(t' & Hp' & _ & _
           & [[_ ->]|[(_ & _ & ->)|(n & m & k & _ & _ & ->)]])].
    + destruct e; eexists _, _; (split; [done|]); by left.
    + assert (t' = t) as -> by congruence.
      eexists _, _. split; [done|]. right. by eexists.
    + assert (t' = t) as -> by congruence.
      eexists _, _. split; [done|]. right. by eexists.
    + assert (t' = t) as -> by congruence.
      eexists _, _. split; [done|]. right. by eexists.
  - exists project_world, "../x.kt", ("x.kt" :: tail beans_place).
    repeat split; try by vm_compute.
    intros [[|c pre] Heq]; [done|].
    apply (f_equal length) in Heq. rewrite length_app in Heq.
    simpl in Heq. lia.
Qed.

End write_file_facts.

Lemma project_takes path text :
  Os.encodable project_world text = true → takes project_world path text.
Proof. by intros Henc. Qed.


Lemma write_file_follows_joined_path_witness :
  write_file project_world "/tmp.kt" "x"
  = (Return ("Successfully wrote content to " +:+ "/tmp.kt"),
     Os.with_disk project_world
       (<[ ["tmp.kt"] := Os.File "x"]> (Os.disk project_world))).
Proof.
  apply (write_file_follows_joined_path project_world "/tmp.kt" "x"
           ["tmp.kt"]); [reflexivity|by_running| |by apply project_takes].
  vm_compute. discriminate.
Defined.

(** ** The tool [create_directory] *)

Section create_directory_facts.

Implicit Types d : gmap (list string) Os.node.
Implicit Types cur t : list string.
Implicit Types w : Os.world.

(** A step of [os.makedirs] only adds to the disk. *)
Lemma mkdir_step_subseteq w d cur c p r d' :
  Os.mkdir_step w d cur c p = (r, d') → d ⊆ d'.
Proof.
  unfold Os.mkdir_step. intros Hstep.
  repeat (case_match || case_bool_decide); simplify_eq; try done.
  apply insert_subseteq.
  by destruct cur.
Qed.

Lemma makedirs_from_subseteq w cs p : ∀ d cur r d',
  Os.makedirs_from w d cur cs p = (r, d') → d ⊆ d'.
Proof.
  induction cs as [|c cs IH]; intros d cur r d'; cbn.
  - by intros [= _ <-].
  - destruct (Os.mkdir_step w d cur c p) as [[cur1|e] d1] eqn:Hstep.
    + intros Hrec. etrans; [by eapply mkdir_step_subseteq|by eapply IH].
    + intros [= _ <-]. by eapply mkdir_step_subseteq.
Qed.

(** The steps do not look at the disk of the world they are given. *)
Lemma makedirs_from_with_disk w d0 cs p : ∀ d cur,
  Os.makedirs_from (Os.with_disk w d0) d cur cs p
  = Os.makedirs_from w d cur cs p.
Proof.
  induction cs as [|c cs IH]; intros d cur; [done|].
  cbn [Os.makedirs_from].
  change (Os.mkdir_step (Os.with_disk w d0) d cur c p)
    with (Os.mkdir_step w d cur c p).
  destruct (Os.mkdir_step w d cur c p) as [[cur1|e] d1]; [apply IH|done].
Qed.

(** A step that went through goes through again, and adds nothing, on any
    disk that holds what the step left. *)
Lemma mkdir_step_again w d cur c p cur1 d1 d2 :
  Os.mkdir_step w d cur c p = (Return cur1, d1) →
  d1 ⊆ d2 →
  Os.mkdir_step w d2 cur c p = (Return cur1, d2).
Proof.
  intros Hstep Hsub.
  pose proof (mkdir_step_subseteq _ _ _ _ _ _ _ Hstep) as Hd.
  revert Hstep. unfold Os.mkdir_step.
  destruct (Os.fsconvert w c) as [[]|]; [|done].
  destruct (Os.node_at d cur) as [[]|] eqn:Hcur; try done.
  rewrite (node_at_weaken d d2 cur Os.Dir) by (done || by etrans).
  repeat case_bool_decide; try by intros [= <- _].
  destruct (Os.node_at d (c :: cur)) as [x|] eqn:Hc; intros [= <- <-].
  - by rewrite (node_at_weaken d d2 (c :: cur) x).
  - assert (Os.node_at d2 (c :: cur) = Some Os.Dir) as ->; [|done].
    eapply node_at_weaken; [exact Hsub|]. by apply node_at_insert.
Qed.

Lemma makedirs_from_again w cs p : ∀ d cur t d' d2,
  Os.makedirs_from w d cur cs p = (Return t, d') →
  d' ⊆ d2 →
  Os.makedirs_from w d2 cur cs p = (Return t, d2).
Proof.
  induction cs as [|c cs IH]; intros d cur t d' d2; cbn.
  - by intros [= <- _].
  - destruct (Os.mkdir_step w d cur c p) as [[cur1|e] d1] eqn:Hstep;
      [|done].
    intros Hrec Hsub.
    rewrite (mkdir_step_again _ _ _ _ _ _ _ d2 Hstep).
    + by eapply IH.
    + etrans; [by eapply makedirs_from_subseteq|done].
Qed.

(** Where [os.makedirs] arrived, the path leads. *)
Lemma mkdir_step_enter w d cur c p cur1 d1 d2 :
  Os.mkdir_step w d cur c p = (Return cur1, d1) →
  d1 ⊆ d2 →
  Os.enter d2 cur c p = Return cur1.
Proof.
  intros Hstep Hsub.
  pose proof (mkdir_step_subseteq _ _ _ _ _ _ _ Hstep) as Hd.
  revert Hstep. unfold Os.mkdir_step, Os.enter.
  destruct (Os.fsconvert w c) as [[]|]; [|done].
  destruct (Os.node_at d cur) as [[]|] eqn:Hcur; try done.
  rewrite (node_at_weaken d d2 cur Os.Dir) by (done || by etrans).
  repeat case_bool_decide; try by intros [= <- _].
  by destruct (Os.node_at d (c :: cur)); intros [= <- _].
Qed.

Lemma makedirs_from_lookup w cs p : ∀ d cur t d' d2,
  Os.makedirs_from w d cur cs p = (Return t, d') →
  d' ⊆ d2 →
  Os.lookup_from d2 cur cs p = Return t.
Proof.
  induction cs as [|c cs IH]; intros d cur t d' d2; cbn.
  - by intros [= <- _].
  - destruct (Os.mkdir_step w d cur c p) as [[cur1|e] d1] eqn:Hstep;
      [|done].
    intros Hrec Hsub.
    rewrite (mkdir_step_enter _ _ _ _ _ _ _ d2 Hstep).
    + cbn. by eapply IH.
    + etrans; [by eapply makedirs_from_subseteq|done].
Qed.

Lemma mkdir_step_passes w d cur c p cur1 d1 :
  Os.mkdir_step w d cur c p = (Return cur1, d1) → passes w c.
Proof.
  unfold Os.mkdir_step. intros Hstep. apply fsconvert_Return.
  by destruct (Os.fsconvert w c) as [[]|].
Qed.

Lemma makedirs_from_passes w cs p : ∀ d cur t d',
  Os.makedirs_from w d cur cs p = (Return t, d') →
  Forall (passes w) cs.
Proof.
  induction cs as [|c cs IH]; intros d cur t d'; cbn; [done|].
  destruct (Os.mkdir_step w d cur c p) as [[cur1|e] d1] eqn:Hstep; [|done].
  intros Hrec. constructor; [by eapply mkdir_step_passes|by eapply IH].
Qed.

(** A character that is in none of the parts of a path is not in the
    path, unless it is the separator. *)
Lemma contains_split s sep c :
  c ≠ sep →
  Forall (λ part, contains part c = false) (split s sep) →
  contains s c = false.
Proof.
  intros Hc. induction s as [|a s IH]; [done|]. simpl.
  destruct (Ascii.eqb_spec a sep) as [->|Ha].
  - intros [_ Hs]%Forall_cons. rewrite (IH Hs).
    by destruct (Ascii.eqb_spec sep c) as [->|].
  - pose proof (split_not_nil s sep) as Hnil.
    destruct (split s sep) as [|part parts]; [done|].
    intros [Hp Hs]%Forall_cons. simpl in Hp.
    apply orb_false_iff in Hp as [-> Hp]. apply IH. by constructor.
Qed.

(** A path whose parts can be encoded can be encoded. *)
Lemma encodes_split chars s :
  Forall (λ part, Os.encodes chars part = true) (split s "/") →
  Os.encodes chars s = true.
Proof.
  induction s as [|a s IH]; [done|]. cbn [split Os.encodes].
  destruct (Ascii.eqb_spec a "/") as [->|Ha].
  - intros [_ Hs]%Forall_cons. by rewrite (IH Hs).
  - pose proof (split_not_nil s "/") as Hnil.
    destruct (split s "/") as [|part parts]; [done|].
    intros [Hp Hs]%Forall_cons. cbn [Os.encodes] in Hp.
    apply andb_true_iff in Hp as [-> Hp]. apply IH. by constructor.
Qed.

Lemma passes_split w p : Forall (passes w) (split p "/") → passes w p.
Proof.
  intros Hparts. split.
  - apply encodes_split. eapply Forall_impl; [exact Hparts|]. by intros ? [].
  - apply (contains_split p "/"); [done|].
    eapply Forall_impl; [exact Hparts|]. by intros ? [].
Qed.

(** [os.makedirs] that succeeded succeeds again and changes nothing, and
    the path then leads to a directory. *)
Lemma makedirs_again w p w' :
  Os.makedirs w p = (Return (), w') →
  Os.makedirs w' p = (Return (), w')
  ∧ ∃ t, Os.namei w' p = Return t
         ∧ Os.node_at (Os.disk w') t = Some Os.Dir.
Proof.
  unfold Os.makedirs.
  destruct (String.eqb_spec p "") as [|Hp]; [done|].
  destruct (Os.makedirs_from w (Os.disk w) (Os.origin w p) (split p "/") p)
    as [[t|e] d'] eqn:Hmk; [|done].
  destruct (Os.node_at d' t) as [[]|] eqn:Ht; try done.
  intros [= <-].
  change (Os.origin (Os.with_disk w d') p) with (Os.origin w p).
  change (Os.disk (Os.with_disk w d')) with d'.
  rewrite makedirs_from_with_disk.
  rewrite (makedirs_from_again _ _ _ _ _ _ _ d' Hmk) by done.
  rewrite Ht. split; [done|]. exists t. split; [|done].
  apply namei_Return. split; [|split; [done|]].
  - apply (passes_split w). by eapply makedirs_from_passes.
  - by eapply makedirs_from_lookup.
Qed.

(** C8.  After [create_directory] has answered with its success string, a
    second call with the same name gives the same answer and leaves the
    disk as the first call left it; the path made of the units directory
    and the name then leads to one place, and a directory is there. *)
Theorem create_directory_idempotent w dir_name w' :
  create_directory w dir_name
  = (Return ("Successfully created directory " +:+ dir_name), w') →
  create_directory w' dir_name
  = (Return ("Successfully created directory " +:+ dir_name), w')
  ∧ is_success ("Successfully created directory " +:+ dir_name)
  ∧ ∃ t, Os.namei w' (posixpath.join BEANS_DIR dir_name) = Return t
         ∧ Os.node_at (Os.disk w') t = Some Os.Dir.
Proof.
  unfold create_directory.
  destruct (Os.makedirs w (posixpath.join BEANS_DIR dir_name))
    as [[[]|e] w1] eqn:Hmk.
  - intros [= <-].
    destruct (makedirs_again _ _ _ Hmk) as [-> Hdir].
    split; [done|]. split; [|done].
    apply (startswith_app "Successfully" (" created directory " +:+ dir_name)).
  - by destruct e; intros [=].
Qed.

End create_directory_facts.

Lemma create_directory_idempotent_witness :
  let run := create_directory project_world "c/d" in
  run.1 = Return ("Successfully created directory " +:+ "c/d")
  ∧ create_directory run.2 "c/d"
    = (Return ("Successfully created directory " +:+ "c/d"), run.2).
Proof.
  intros run.
  assert (run.1 = Return ("Successfully created directory " +:+ "c/d"))
    as Hanswer by by_running.
  split; [exact Hanswer|].
  apply (create_directory_idempotent project_world "c/d" run.2).
  rewrite <-Hanswer. apply surjective_pairing.
Defined.

(** ** The test tools *)

Section test_tools_facts.

Implicit Types w : Os.world.

Lemma convert_args_Return w args :
  subprocess.convert_args w args = Return () ↔ Forall (passes w) args.
Proof.
  induction args as [|a args IH]; cbn [subprocess.convert_args].
  - split; [by constructor|done].
  - rewrite Forall_cons, <-IH, <-fsconvert_Return.
    destruct (Os.fsconvert w a) as [[]|]; cbn [mbind result_bind bind];
      intuition congruence.
Qed.

Lemma convert_args_Raise w args e :
  subprocess.convert_args w args = Raise e →
  e = UnicodeEncodeError ∨ e = ValueError "embedded null byte".
Proof.
  induction args as [|a args IH]; cbn [subprocess.convert_args]; [done|].
  destruct (Os.fsconvert w a) as [[]|e'] eqn:Ha;
    cbn [mbind result_bind bind]; [done|].
  intros [= <-]. by eapply fsconvert_Raise.
Qed.


Lemma text_Raise w data e :
  subprocess.text w data = Raise e ↔
  Os.decode w data = None ∧ e = UnicodeDecodeError.
Proof.
  unfold subprocess.text.
  destruct (Os.decode w data) as [s0|]; intuition congruence.
Qed.

Lemma passes_PROJECT_ROOT w : passes w PROJECT_ROOT.
Proof. done. Qed.

Lemma passes_gradlew w : passes w "./gradlew".
Proof. done. Qed.

(** What [subprocess.run] gives once the runner has run to its end. *)
Lemma run_started w argv rest rc out err :
  argv = "./gradlew" :: rest →
  started w argv rc out err →
  subprocess.run w argv PROJECT_ROOT true
  = (o ← subprocess.text w out;
     e ← subprocess.text w err;
     if rc =? 0 then Return (subprocess.mkCompleted argv rc o e)
     else Raise (CalledProcessError rc argv o e)).
Proof.
  intros -> (x & (Hpass & d & Hd & Hdir & Hx & text & Hfile) & Hexec).
  unfold subprocess.run.
  apply convert_args_Return in Hpass. rewrite Hpass, Hd.
  cbn [mbind result_bind bind head default]. rewrite Hdir.
  change (id "./gradlew") with "./gradlew". rewrite Hx.
  cbn [mbind result_bind bind]. rewrite Hfile, Hexec.
  destruct (subprocess.text w out) as [o|]; [|done].
  destruct (subprocess.text w err) as [e|]; [|done].
  cbn [mbind result_bind bind]. by destruct (rc =? 0).
Qed.

Lemma run_not_converted w argv cwd check e :
  subprocess.convert_args w argv = Raise e →
  subprocess.run w argv cwd check = Raise e.
Proof. intros Hargs. unfold subprocess.run. by rewrite Hargs. Qed.

(** What [subprocess.run] gives when the runner does not run to its end:
    the exception of the launch, which is an [OSError] unless an argument
    cannot be handed to the system. *)
Lemma run_not_started w argv rest :
  argv = "./gradlew" :: rest →
  (∀ rc out err, ¬ started w argv rc out err) →
  ∃ e, subprocess.run w argv PROJECT_ROOT true = Raise e
       ∧ ((Forall (passes w) argv ∧ ∃ n m f, e = OSError n m f)
          ∨ (subprocess.convert_args w argv = Raise e
             ∧ (e = UnicodeEncodeError
                ∨ e = ValueError "embedded null byte"))).
Proof.
  intros -> Hno. unfold subprocess.run.
  destruct (subprocess.convert_args w ("./gradlew" :: rest))
    as [[]|e0] eqn:Hargs; cbn [mbind result_bind bind].
  2:{ exists e0. split; [done|]. right. split; [done|].
      by eapply convert_args_Raise. }
  apply convert_args_Return in Hargs.
  destruct (Os.namei w PROJECT_ROOT) as [d|e1] eqn:Hd;
    cbn [mbind result_bind bind head default].
  2:{ exists e1. split; [done|]. left. split; [done|].
      by apply (namei_OSError w PROJECT_ROOT). }
  change (id "./gradlew") with "./gradlew".
  destruct (Os.node_at (Os.disk w) d) as [[text|]|] eqn:Hdir.
  { eexists. split; [done|]. left. split; [done|]. by eexists _, _, _. }
  2:{ eexists. split; [done|]. left. split; [done|]. by eexists _, _, _. }
  destruct (Os.namei (Os.with_cwd w d) "./gradlew") as [x|e2] eqn:Hx;
    cbn [mbind result_bind bind].
  2:{ exists e2. split; [done|]. left. split; [done|].
      by apply (namei_OSError (Os.with_cwd w d) "./gradlew"). }
  destruct (Os.node_at (Os.disk w) x) as [[text|]|] eqn:Hfile.
  2:{ eexists. split; [done|]. left. split; [done|]. by eexists _, _, _. }
  2:{ eexists. split; [done|]. left. split; [done|]. by eexists _, _, _. }
  destruct (Os.exec w x ("./gradlew" :: rest)) as [n m|rc out err] eqn:Hexec.
  { eexists. split; [done|]. left. split; [done|]. by eexists _, _, _. }
  destruct (Hno rc out err). exists x. split; [|done].
  split; [done|]. exists d. repeat split; try done. by exists text.
Qed.

(** The runner runs to its end, or it does not. *)
Lemma started_or_not w argv :
  (∃ rc out err, started w argv rc out err)
  ∨ (∀ rc out err, ¬ started w argv rc out err).
Proof.
  destruct (decide (Forall (passes w) argv)) as [Hpass|Hpass].
  2:{ right. by intros rc out err (x & (? & _) & _). }
  destruct (Os.namei w PROJECT_ROOT) as [d|e1] eqn:Hd.
  2:{ right. intros rc out err (x & (_ & d & Hd' & _) & _). congruence. }
  destruct (Os.node_at (Os.disk w) d) as [[text|]|] eqn:Hdir.
  1,3: right; intros rc out err (x & (_ & d' & Hd' & Hdir' & _) & _);
    congruence.
  destruct (Os.namei (Os.with_cwd w d) "./gradlew") as [x|e2] eqn:Hx.
  2:{ right. intros rc out err (x & (_ & d' & Hd' & _ & Hx' & _) & _).
      congruence. }
  destruct (Os.node_at (Os.disk w) x) as [[text|]|] eqn:Hfile.
  2,3: right;
    intros rc out err (x' & (_ & d' & Hd' & _ & Hx' & text & Hfile') & _);
    congruence.
  destruct (Os.exec w x argv) as [n m|rc out err] eqn:Hexec.
  - right.
    intros rc out err (x' & (_ & d' & Hd' & _ & Hx' & _) & Hexec').
    congruence.
  - left. exists rc, out, err, x. split; [|done].
    split; [done|]. exists d. repeat split; try done. by exists text.
Qed.

(** What a test tool makes of what [subprocess.run] gives. *)
Lemma test_tool_answer w argv answer prefix :
  test_tool w argv answer prefix →
  (∃ rest, argv = "./gradlew" :: rest)
  ∧ answer
    = match subprocess.run w argv PROJECT_ROOT true with
      | Return result => Return (subprocess.stdout result)
      | Raise (CalledProcessError _ _ output _) =>
          Return (prefix +:+ output)
      | Raise e => Raise e
      end.
Proof.
  intros [|bean_name]; (split; [by eexists|]); [done|].
  unfold run_specific_bean_test.
  destruct (subprocess.run w _ PROJECT_ROOT true) as [r|[]]; try done.
  by rewrite !str_app_assoc.
Qed.





End test_tools_facts.

(** ** Setting up the workforce *)

Section setup_facts.

Implicit Types beans : list QuarkusBean.
Implicit Types bean b : QuarkusBean.
Implicit Types wf : camel.Workforce tool.

Lemma create_bean_agent_children beans wf bean :
  _create_bean_agent beans wf bean get_tools
  = camel.mkWorkforce (camel.description wf)
      (camel.children wf ++ [worker_of beans bean]).
Proof. done. Qed.

(** The loop of [_setup_workforce] adds one worker for each bean, in the
    order of the beans. *)
Lemma create_bean_agents beans : ∀ l wf,
  foldl (λ wf bean, _create_bean_agent beans wf bean get_tools) wf l
  = camel.mkWorkforce (camel.description wf)
      (camel.children wf ++ (worker_of beans <$> l)).
Proof.
  induction l as [|bean l IH]; intros wf; cbn [foldl].
  - rewrite app_nil_r. by destruct wf.
  - rewrite IH, create_bean_agent_children. cbn.
    by rewrite <-app_assoc.
Qed.

Lemma setup_workforce_children beans wf :
  _setup_workforce beans wf
  = camel.mkWorkforce (camel.description wf)
      (camel.children wf ++ manager :: (worker_of beans <$> beans)).
Proof.
  unfold _setup_workforce. rewrite create_bean_agents. cbn.
  by rewrite <-app_assoc.
Qed.







Lemma other_beans_names beans bean :
  other_beans beans bean
  = (λ k, k.1 +:+ ": " +:+ k.2)
      <$> filter (λ k, k.1 ≠ name bean) (name_and_doc <$> beans).
Proof.
  unfold other_beans. induction beans as [|b beans IH]; [done|].
  rewrite fmap_cons, !filter_cons. cbn [name_and_doc fst].
  destruct (decide (name b ≠ name bean)); [|done].
  by rewrite !fmap_cons, IH.
Qed.

(** A worker is made from the names and the documentation blocks of the
    beans, and from nothing else of them. *)
Lemma worker_of_from_names beans bean :
  worker_of beans bean
  = worker_of_names (name_and_doc <$> beans) (name_and_doc bean).
Proof.
  unfold worker_of, worker_of_names. by rewrite other_beans_names.
Qed.

(** C7.  Two runs of setup over units with the same names and
    documentation blocks in the same order build the same workforce: the
    same agents in the same order, with the same names, the same tools and
    the same instruction strings, character for character, for the
    coordinator and for every worker.  Paths and contents of the units do
    not matter. *)
Theorem setup_deterministic beans1 beans2 wf :
  name_and_doc <$> beans1 = name_and_doc <$> beans2 →
  _setup_workforce beans1 wf = _setup_workforce beans2 wf
  ∧ prompt <$> camel.children (_setup_workforce beans1 wf)
    = prompt <$> camel.children (_setup_workforce beans2 wf).
Proof.
  intros Hsame.
  assert (_setup_workforce beans1 wf = _setup_workforce beans2 wf) as Heq;
    [|by rewrite Heq].
  rewrite !setup_workforce_children. do 3 f_equal.
  transitivity (worker_of_names (name_and_doc <$> beans1)
                  <$> (name_and_doc <$> beans1)).
  - rewrite <-list_fmap_compose. apply list_fmap_ext.
    intros i b _. apply worker_of_from_names.
  - rewrite Hsame, <-list_fmap_compose. apply list_fmap_ext.
    intros i b _. symmetry. apply worker_of_from_names.
Qed.

Lemma setup_deterministic_witness :
  let wf := camel.Workforce_init "Quarkus Codebase Manager" in
  let beans1 :=
    [mkBean "beans/UserService.kt" "UserService"
       "/** manages users */ class UserService" "/** manages users */"] in
  let beans2 :=
    [mkBean "beans/sub/UserService.kt" "UserService"
       "/** manages users */ class UserService { }" "/** manages users */"] in
  prompt <$> camel.children (_setup_workforce beans1 wf)
  = prompt <$> camel.children (_setup_workforce beans2 wf).
Proof.
  intros wf beans1 beans2.
  apply (setup_deterministic beans1 beans2 wf). reflexivity.
Defined.

End setup_facts.

(** ** Loading the units *)

Section load_facts.

Implicit Types w : Os.world.
Implicit Types bean : QuarkusBean.
Implicit Types beans acc : list QuarkusBean.

Lemma QuarkusBean_init_Return w path bean :
  QuarkusBean_init w path = Return bean →
  file_path bean = path
  ∧ name bean = first (split (posixpath.basename path) ".")
  ∧ Os.read_text w path = Return (content bean)
  ∧ doc_comment bean = extract_doc_comment (content bean).
Proof.
  unfold QuarkusBean_init, read_file.
  destruct (Os.read_text w path) as [text|e]; [|done].
  cbn [mbind result_bind bind fst snd]. by intros [= <-].
Qed.

(** The beans that the inner loop adds come from files of the directory
    whose names end in [.kt]. *)
Lemma load_files_from w root files : ∀ acc beans bean,
  load_files w root files acc = Return beans →
  bean ∈ beans →
  bean ∈ acc
  ∨ ∃ file, file ∈ files
            ∧ endswith file ".kt" = true
            ∧ QuarkusBean_init w (posixpath.join root file) = Return bean.
Proof.
  induction files as [|file files IH]; intros acc beans bean; cbn.
  - intros [= <-]. by left.
  - destruct (endswith file ".kt") eqn:Hext.
    + destruct (QuarkusBean_init w (posixpath.join root file)) as [b|e] eqn:Hb;
        [|done].
      cbn. intros Hload Hin.
      destruct (IH _ _ _ Hload Hin) as [Hacc|(f & Hf & He & Hn)].
      * apply elem_of_app in Hacc as [Hacc|Hnew]; [by left|].
        apply list_elem_of_singleton in Hnew as ->.
        right. exists file. split; [by left|done].
      * right. exists f. split; [by right|done].
    + intros Hload Hin.
      destruct (IH _ _ _ Hload Hin) as [Hacc|(f & Hf & He & Hn)];
        [by left|].
      right. exists f. split; [by right|done].
Qed.

Lemma load_walk_from w walk : ∀ acc beans bean,
  load_walk w walk acc = Return beans →
  bean ∈ beans →
  bean ∈ acc
  ∨ ∃ root dirs files file,
      (root, dirs, files) ∈ walk
      ∧ file ∈ files
      ∧ endswith file ".kt" = true
      ∧ QuarkusBean_init w (posixpath.join root file) = Return bean.
Proof.
  induction walk as [|[[root dirs] files] walk IH]; intros acc beans bean;
    cbn.
  - intros [= <-]. by left.
  - destruct (load_files w root files acc) as [acc'|e] eqn:Hfiles; [|done].
    cbn. intros Hload Hin.
    destruct (IH _ _ _ Hload Hin)
      as [Hacc|(r & ds & fs & f & Hw & Hf & He & Hn)].
    + destruct (load_files_from _ _ _ _ _ _ Hfiles Hacc)
        as [?|(f & Hf & He & Hn)]; [by left|].
      right. exists root, dirs, files, f. split; [by left|done].
    + right. exists r, ds, fs, f. split; [by right|done].
Qed.

(** Every loaded bean was made from a file that [os.walk] found under the
    units directory and whose name ends in [.kt]. *)
Lemma load_beans_from w beans bean :
  _load_beans w = Return beans →
  bean ∈ beans →
  ∃ root dirs files file,
    (root, dirs, files) ∈ Os.walk w BEANS_DIR
    ∧ file ∈ files
    ∧ endswith file ".kt" = true
    ∧ QuarkusBean_init w (posixpath.join root file) = Return bean.
Proof.
  unfold _load_beans. intros Hload Hin.
  destruct (load_walk_from w (Os.walk w BEANS_DIR) [] beans bean Hload Hin)
    as [Hnil|Hfrom]; [|exact Hfrom].
  by apply elem_of_nil in Hnil.
Qed.

(** C6 (as amended).  The name of a loaded unit is the part of the base
    name of its file before the first dot: the base name without its
    extension when there is no other dot in it, and [A] for [A.b.kt].  Its
    content is the full text of the file.  The file is one that [os.walk]
    found, and its base name is the name under which it was found. *)
Theorem loaded_unit_name_and_content w beans bean :
  _load_beans w = Return beans →
  bean ∈ beans →
  before_first_dot (posixpath.basename (file_path bean)) (name bean)
  ∧ (∀ stem ext,
       posixpath.basename (file_path bean) = stem +:+ "." +:+ ext →
       contains stem "." = false →
       name bean = stem)
  ∧ Os.read_text w (file_path bean) = Return (content bean)
  ∧ ∃ root dirs files file,
      (root, dirs, files) ∈ Os.walk w BEANS_DIR
      ∧ file ∈ files
      ∧ file_path bean = posixpath.join root file
      ∧ (contains file "/" = false →
         posixpath.basename (file_path bean) = file).
Proof.
  intros Hload Hin.
  destruct (load_beans_from _ _ _ Hload Hin)
    as (root & dirs & files & file & Hwalk & Hfile & _ & Hnew).
  apply QuarkusBean_init_Return in Hnew as (Hpath & Hname & Hread & _).
  rewrite Hpath, Hname.
  pose proof (first_split_before_dot
                (posixpath.basename (posixpath.join root file))) as Hdot.
  split; [done|]. split; [|split; [done|]].
  - intros stem ext Hbase Hstem. by eapply before_first_dot_stem.
  - exists root, dirs, files, file. repeat split; try done.
    apply basename_join.
Qed.

Lemma loaded_unit_name_and_content_witness :
  name unit_Foo_a = "Foo"
  ∧ Os.read_text project_world (file_path unit_Foo_a)
    = Return (content unit_Foo_a).
Proof.
  destruct (loaded_unit_name_and_content project_world project_units
              unit_Foo_a) as (_ & Hstem & Hread & _).
  - by_running.
  - by do 2 right; left.
  - split; [|exact Hread]. by apply (Hstem "Foo" "kt").
Defined.

(** C6, as it was stated, fails: the file [A.b.kt] is loaded under the
    name [A], not [A.b]. *)
Lemma loaded_unit_name_stops_at_first_dot :
  _load_beans project_world = Return project_units
  ∧ unit_A ∈ project_units
  ∧ posixpath.basename (file_path unit_A) = "A.b" +:+ ".kt"
  ∧ name unit_A = "A"
  ∧ name unit_A ≠ "A.b".
Proof.
  split; [by_running|]. split; [by left|]. by vm_compute.
Qed.

Lemma endswith_same_length s a b :
  endswith s a = true → endswith s b = true →
  String.length a = String.length b → a = b.
Proof.
  unfold endswith. rewrite !andb_true_iff, !String.eqb_eq.
  intros [_ Ha] [_ Hb] Hlen. rewrite <-Hb, <-Hlen. by symmetry.
Qed.

(** C10.  The ending is compared character by character, so that only
    the lower-case [.kt] will do.  A loaded unit comes from a file that
    [os.walk] found, whose name is some stem followed by [.kt]; it never
    comes from a file named [Foo.KT].  [write_file] answers a name that is
    not some stem followed by [.kt], such as [Foo.KT], with its error
    string, and leaves the disk alone. *)
Theorem extension_is_case_sensitive w beans bean file_name content :
  (_load_beans w = Return beans →
   bean ∈ beans →
   (∃ root dirs files file stem,
      (root, dirs, files) ∈ Os.walk w BEANS_DIR
      ∧ file ∈ files
      ∧ file = stem +:+ ".kt"
      ∧ file_path bean = posixpath.join root file)
   ∧ ∀ root, file_path bean ≠ posixpath.join root "Foo.KT")
  ∧ ((∀ stem, file_name ≠ stem +:+ ".kt") →
     write_file w file_name content
     = (Return "Error: Only .kt files are allowed.", w)
     ∧ is_error "Error: Only .kt files are allowed.")
  ∧ (∀ stem, "Foo.KT" ≠ stem +:+ ".kt").
Proof.
  split; [|split].
  - intros Hload Hin.
    destruct (load_beans_from _ _ _ Hload Hin)
      as (root & dirs & files & file & Hwalk & Hfile & Hext & Hnew).
    apply QuarkusBean_init_Return in Hnew as (Hpath & _).
    split.
    + apply endswith_spec in Hext as [stem ->].
      by exists root, dirs, files, (stem +:+ ".kt"), stem.
    + intros root' Heq.
      assert (endswith (file_path bean) ".kt" = true) as Hlower.
      { rewrite Hpath. by apply endswith_join. }
      assert (endswith (file_path bean) ".KT" = true) as Hupper.
      { rewrite Heq. by apply endswith_join. }
      by pose proof (endswith_same_length _ _ _ Hlower Hupper eq_refl).
  - intros Hno. split; [|done]. apply write_file_rejected.
    destruct (endswith file_name ".kt") eqn:Hext; [|done].
    apply endswith_spec in Hext as [stem ->]. by destruct (Hno stem).
  - intros stem Heq.
    assert (endswith "Foo.KT" ".kt" = true) as Hext; [|done].
    apply endswith_spec. by exists stem.
Qed.

Lemma extension_is_case_sensitive_witness :
  ("Bar.KT" ∈ (Os.walk project_world BEANS_DIR).*2 ≫= id
   ∧ ∀ root, file_path unit_Foo_b ≠ posixpath.join root "Foo.KT")
  ∧ write_file project_world "Foo.KT" "class Foo"
    = (Return "Error: Only .kt files are allowed.", project_world).
Proof.
  destruct (extension_is_case_sensitive project_world project_units
              unit_Foo_b "Foo.KT" "class Foo") as (Hload & Hwrite & Hupper).
  split; [split|].
  - vm_compute. by do 2 right; left.
  - apply Hload; [by_running|by right; left].
  - by apply Hwrite.
Defined.

End load_facts.

(** * Further properties *)

(** ** More on the documentation block *)

Section doc_comment_more.

Local Open Scope nat_scope.

Lemma substring_app_l s t : ∀ n m,
  n + m ≤ String.length s →
  String.substring n m (s +:+ t) = String.substring n m s.
Proof.
  induction s as [|c s IH]; intros n m Hle; simpl in Hle.
  - assert (n = 0) as -> by lia. assert (m = 0) as -> by lia.
    rewrite str_app_nil_l. by destruct t.
  - rewrite str_app_cons. destruct n as [|n], m as [|m]; simpl; try done.
    + f_equal. apply IH. lia.
    + apply (IH n 0). lia.
    + apply IH. lia.
Qed.

(** An occurrence that fits in [s] is the same in [s] and in [s] followed by
    more text. *)
Lemma occurs_app_l sub s t i :
  sub ≠ "" → i + String.length sub ≤ String.length s →
  occurs sub (s +:+ t) i ↔ occurs sub s i.
Proof.
  intros Hne Hle. split.
  - intros Hocc%occurs_substring. apply substring_occurs; [done|].
    by rewrite <-(substring_app_l s t).
  - intros Hocc%occurs_substring. apply substring_occurs; [done|].
    by rewrite substring_app_l.
Qed.

(** The block is where the first markers are. *)
Lemma extract_doc_comment_found content i j :
  first_occurrence "/**" content 0 i →
  first_occurrence "*/" content i j →
  extract_doc_comment content = String.substring i (j + 2 - i) content.
Proof.
  intros Ho Hc.
  destruct (extract_doc_comment_cases content)
    as [[Hi _]|[(i' & Hi & Hj & _)|(i' & j' & Hi & Hj & _ & _ & ->)]].
  - destruct Ho as (_ & Ho & _).
    by destruct (index_none "/**" content 0 i ltac:(done) Hi ltac:(lia)).
  - pose proof (index_first "/**" content 0 i' ltac:(done) Hi) as Ho'.
    rewrite (first_occurrence_unique _ _ _ _ _ Ho' Ho) in Hj.
    destruct Hc as (Hle & Hc & _).
    by destruct (index_none "*/" content i j ltac:(done) Hj Hle).
  - pose proof (index_first "/**" content 0 i' ltac:(done) Hi) as Ho'.
    pose proof (first_occurrence_unique _ _ _ _ _ Ho' Ho) as ->.
    pose proof (index_first "*/" content i j' ltac:(done) Hj) as Hc'.
    by pose proof (first_occurrence_unique _ _ _ _ _ Hc' Hc) as ->.
Qed.

(** X1.  Extraction is idempotent: the block extracted from a text is its
    own block. *)
Theorem extract_doc_comment_idempotent (content : string) :
  extract_doc_comment (extract_doc_comment content)
  = extract_doc_comment content.
Proof.
  destruct (extract_doc_comment_cases content)
    as [[_ ->]|[(i & _ & _ & ->)|(i & j & Hi & Hj & Hij & Hlen & ->)]];
    [done..|].
  pose proof (index_first "*/" content i j ltac:(done) Hj) as (_ & _ & Hmin).
  apply String.index_correct1 in Hi, Hj. simpl in Hi, Hj.
  set (doc := String.substring i (j + 2 - i) content).
  assert (String.length doc = j + 2 - i) as Hdoc.
  { unfold doc. rewrite substring_length. lia. }
  rewrite (extract_doc_comment_found doc 0 (j - i)).
  - replace (j - i + 2 - 0) with (String.length doc) by lia.
    apply substring_all.
  - split; [lia|]. split; [|lia].
    apply substring_occurs; [done|]. unfold doc.
    rewrite substring_substring by (simpl; lia). by rewrite Nat.add_0_r.
  - split; [lia|]. split.
    + apply substring_occurs; [done|]. unfold doc.
      rewrite substring_substring by (simpl; lia).
      by replace (i + (j - i)) with j by lia.
    + intros k [_ Hk] Hocc%occurs_substring. apply (Hmin (i + k)); [lia|].
      apply substring_occurs; [done|]. unfold doc in Hocc.
      by rewrite substring_substring in Hocc by (simpl; lia).
Qed.

(** X2.  Once a text has a block, what follows the text does not matter:
    the text with more text appended has the same block. *)
Theorem extract_doc_comment_app (content more : string) :
  extract_doc_comment content ≠ "" →
  extract_doc_comment (content +:+ more) = extract_doc_comment content.
Proof.
  intros Hne.
  destruct (extract_doc_comment_cases content)
    as [[_ E]|[(i & _ & _ & E)|(i & j & Hi & Hj & Hij & Hlen & ->)]];
    [done..|].
  pose proof (index_first "/**" content 0 i ltac:(done) Hi)
    as (_ & Ho & Hopen).
  pose proof (index_first "*/" content i j ltac:(done) Hj)
    as (_ & Hc & Hclose).
  rewrite (extract_doc_comment_found (content +:+ more) i j).
  - apply substring_app_l. lia.
  - split; [lia|]. split.
    + apply occurs_app_l; [done|simpl; lia|done].
    + intros k Hk Hocc. apply (Hopen k Hk).
      apply occurs_app_l in Hocc; [done..|simpl; lia].
  - split; [lia|]. split.
    + apply occurs_app_l; [done|simpl; lia|done].
    + intros k Hk Hocc. apply (Hclose k Hk).
      apply occurs_app_l in Hocc; [done..|simpl; lia].
Qed.

End doc_comment_more.

Lemma extract_doc_comment_app_witness :
  extract_doc_comment ("/** a */ class A" +:+ " /** b */")
  = extract_doc_comment "/** a */ class A".
Proof. apply extract_doc_comment_app. by vm_compute. Defined.

(** ** More on loading the units *)

Section load_more.

Implicit Types w : Os.world.
Implicit Types bean : QuarkusBean.
Implicit Types beans acc : list QuarkusBean.

(** What [QuarkusBean(path)] is when the file can be read. *)
Lemma QuarkusBean_init_spec w path bean :
  QuarkusBean_init w path = Return bean ↔
  ∃ text,
    Os.read_text w path = Return text
    ∧ bean = mkBean path (first (split (posixpath.basename path) "."))
               text (extract_doc_comment text).
Proof.
  unfold QuarkusBean_init, read_file.
  destruct (Os.read_text w path) as [text|e];
    cbn [mbind result_bind bind fst snd].
  - split; [intros [= <-]; by exists text|]. by intros (? & [= <-] & ->).
  - split; [done|]. by intros (? & ? & _).
Qed.

Lemma load_files_Forall2 w root files : ∀ acc beans,
  load_files w root files acc = Return beans ↔
  ∃ bs,
    beans = acc ++ bs
    ∧ Forall2 (λ path b, QuarkusBean_init w path = Return b)
        (posixpath.join root <$> filter (λ f, endswith f ".kt" = true) files)
        bs.
Proof.
  induction files as [|file files IH]; intros acc beans;
    cbn [load_files].
  - split.
    + intros [= <-]. exists []. by rewrite app_nil_r.
    + intros (bs & -> & ->%Forall2_nil_inv_l). by rewrite app_nil_r.
  - rewrite filter_cons. destruct (endswith file ".kt") eqn:Hext.
    + rewrite decide_True by done. rewrite fmap_cons.
      destruct (QuarkusBean_init w (posixpath.join root file)) as [b|e] eqn:Hb;
        cbn [mbind result_bind bind].
      * rewrite IH. split.
        -- intros (bs & -> & Hbs). exists (b :: bs).
           split; [by rewrite <-app_assoc|by constructor].
        -- intros (bs & -> & Hbs).
           apply Forall2_cons_inv_l in Hbs as (b' & bs' & Hb' & Hbs' & ->).
           rewrite Hb in Hb'. injection Hb' as <-.
           exists bs'. split; [by rewrite <-app_assoc|done].
      * split; [done|]. intros (bs & _ & Hbs).
        apply Forall2_cons_inv_l in Hbs as (b' & bs' & Hb' & _).
        by rewrite Hb in Hb'.
    + rewrite decide_False by done. apply IH.
Qed.

Lemma load_walk_Forall2 w walk : ∀ acc beans,
  load_walk w walk acc = Return beans ↔
  ∃ bs,
    beans = acc ++ bs
    ∧ Forall2 (λ path b, QuarkusBean_init w path = Return b)
        (kt_paths walk) bs.
Proof.
  induction walk as [|[[root dirs] files] walk IH]; intros acc beans;
    cbn [load_walk].
  - split.
    + intros [= <-]. exists []. by rewrite app_nil_r.
    + intros (bs & -> & ->%Forall2_nil_inv_l). by rewrite app_nil_r.
  - unfold kt_paths. rewrite bind_cons. fold (kt_paths walk).
    cbn [fst snd].
    destruct (load_files w root files acc) as [acc'|e] eqn:Hfiles;
      cbn [mbind result_bind bind].
    + apply load_files_Forall2 in Hfiles as (bs1 & -> & Hbs1).
      rewrite IH. split.
      * intros (bs2 & -> & Hbs2). exists (bs1 ++ bs2).
        split; [by rewrite <-app_assoc|by apply Forall2_app].
      * intros (bs & -> & Hbs).
        apply Forall2_app_inv_l in Hbs as (bs1' & bs2 & Hbs1' & Hbs2 & ->).
        assert (bs1' = bs1) as ->.
        { clear -Hbs1 Hbs1'. revert bs1' Hbs1'.
          induction Hbs1 as [|p b ps bs Hb _ IHbs]; intros bs1' Hbs1'.
          - by apply Forall2_nil_inv_l in Hbs1'.
          - apply Forall2_cons_inv_l in Hbs1' as (b' & bs' & Hb' & Hbs' & ->).
            rewrite Hb in Hb'. injection Hb' as <-. f_equal. by apply IHbs. }
        exists bs2. split; [by rewrite <-app_assoc|done].
    + split; [done|]. intros (bs & _ & Hbs).
      apply Forall2_app_inv_l in Hbs as (bs1 & bs2 & Hbs1 & _ & _).
      assert (load_files w root files acc = Return (acc ++ bs1)) as Hok.
      { apply load_files_Forall2. by exists bs1. }
      by rewrite Hfiles in Hok.
Qed.

(** X3.  The loader returns a list exactly when every file that the walk
    found with a name ending in [.kt] can be read, and the list then has one
    unit for each of these files, in the order of the walk: the unit of a
    path has that path, the name cut from its base name, the text read, and
    the block extracted from that text. *)
Theorem load_beans_spec w beans :
  _load_beans w = Return beans ↔
  Forall2
    (λ path bean,
       ∃ text,
         Os.read_text w path = Return text
         ∧ bean = mkBean path (first (split (posixpath.basename path) "."))
                    text (extract_doc_comment text))
    (kt_paths (Os.walk w BEANS_DIR)) beans.
Proof.
  unfold _load_beans. rewrite load_walk_Forall2. split.
  - intros (bs & -> & Hbs). rewrite app_nil_l.
    eapply Forall2_impl; [exact Hbs|].
    intros path b Hb. by apply QuarkusBean_init_spec.
  - intros Hbs. exists beans. split; [done|].
    eapply Forall2_impl; [exact Hbs|].
    intros path b Hb. by apply QuarkusBean_init_spec.
Qed.

(** X4.  When the walk finds no file with a name ending in [.kt], as it
    does when the units directory is missing, nothing is raised: no unit is
    loaded and the workforce has the manager for its only agent. *)
Theorem no_units_manager_only w :
  (∀ root dirs files file,
     (root, dirs, files) ∈ Os.walk w BEANS_DIR →
     file ∈ files → endswith file ".kt" = false) →
  _load_beans w = Return []
  ∧ EncaptWorkforce_init w
    = Return ([], camel.mkWorkforce "Quarkus Codebase Manager" [manager]).
Proof.
  intros Hnone.
  assert (_load_beans w = Return []) as Hload.
  { unfold _load_beans. apply load_walk_Forall2. exists []. split; [done|].
    assert (kt_paths (Os.walk w BEANS_DIR) = []) as ->; [|constructor].
    unfold kt_paths.
    induction (Os.walk w BEANS_DIR) as [|[[root dirs] files] walk IH];
      [done|].
    rewrite bind_cons, IH
      by (intros r ds fs f Hin; apply (Hnone r ds fs f); by right).
    cbn [fst snd].
    assert (filter (λ f, endswith f ".kt" = true) files = []) as ->; [|done].
    assert (∀ f, f ∈ files → endswith f ".kt" = false) as Hfiles.
    { intros f. apply (Hnone root dirs files f). by left. }
    clear -Hfiles. induction files as [|f files IHf]; [done|].
    rewrite filter_cons, decide_False.
    - apply IHf. intros file Hf. apply Hfiles. by right.
    - rewrite (Hfiles f); [done|by left]. }
  split; [done|]. unfold EncaptWorkforce_init. by rewrite Hload.
Qed.

Lemma slash_decomp s :
  contains s "/" = false
  ∨ ∃ pre rest, s = pre +:+ "/" +:+ rest ∧ contains rest "/" = false.
Proof.
  induction s as [|a s [IH|(pre & rest & -> & Hrest)]].
  - by left.
  - destruct (Ascii.eqb_spec a "/") as [->|Ha].
    + right. by exists "", s.
    + left. cbn [contains]. rewrite IH.
      by apply Ascii.eqb_neq in Ha as ->.
  - right. by exists (String a pre), rest.
Qed.

Lemma basename_no_sep p : contains (posixpath.basename p) "/" = false.
Proof.
  destruct (slash_decomp p) as [Hp|(pre & rest & -> & Hrest)].
  - by rewrite basename_no_slash.
  - by rewrite basename_after_slash.
Qed.

(** X5.  The name of a unit holds neither a dot nor a slash, whatever the
    path of its file. *)
Theorem unit_name_plain w path bean :
  QuarkusBean_init w path = Return bean →
  contains (name bean) "." = false ∧ contains (name bean) "/" = false.
Proof.
  intros (text & _ & ->)%QuarkusBean_init_spec. cbn [name].
  destruct (first_split_before_dot (posixpath.basename path))
    as [Hdot Hbase].
  split; [done|]. pose proof (basename_no_sep path) as Hsep.
  destruct Hbase as [<-|[rest Heq]]; [done|].
  rewrite Heq, contains_app in Hsep. by apply orb_false_iff in Hsep as [? _].
Qed.

End load_more.

Lemma no_units_manager_only_witness :
  _load_beans empty_world = Return [].
Proof.
  apply no_units_manager_only. intros root dirs files file Hin.
  vm_compute in Hin. by apply elem_of_nil in Hin.
Defined.

Lemma unit_name_plain_witness :
  contains (name unit_A) "." = false ∧ contains (name unit_A) "/" = false.
Proof.
  apply (unit_name_plain project_world (file_path unit_A)). by_running.
Defined.

(** ** More on the tool [write_file] *)

Section write_file_more.

Implicit Types w : Os.world.
Implicit Types d : gmap (list string) Os.node.

Lemma with_disk_same w : Os.with_disk w (Os.disk w) = w.
Proof. by destruct w. Qed.

Lemma join_BEANS_DIR name :
  posixpath.join BEANS_DIR name
  = if startswith name "/" then name else BEANS_DIR +:+ "/" +:+ name.
Proof. unfold posixpath.join. by destruct (startswith name "/"). Qed.

Lemma contains_join_BEANS_DIR name :
  contains (posixpath.join BEANS_DIR name) Os.NUL = contains name Os.NUL.
Proof.
  rewrite join_BEANS_DIR. destruct (startswith name "/"); [done|].
  by rewrite !contains_app.
Qed.

Lemma encodes_app chars s u :
  Os.encodes chars (s +:+ u) = Os.encodes chars s && Os.encodes chars u.
Proof.
  induction s as [|a s IH]; [done|].
  rewrite str_app_cons. cbn [Os.encodes]. by rewrite IH, andb_assoc.
Qed.

Lemma fsencodable_join_BEANS_DIR w name :
  Os.fsencodable w (posixpath.join BEANS_DIR name) = Os.fsencodable w name.
Proof.
  rewrite join_BEANS_DIR. destruct (startswith name "/"); [done|].
  unfold Os.fsencodable. by rewrite !encodes_app.
Qed.

Lemma passes_join_BEANS_DIR w name :
  passes w (posixpath.join BEANS_DIR name) ↔ passes w name.
Proof.
  unfold passes.
  by rewrite fsencodable_join_BEANS_DIR, contains_join_BEANS_DIR.
Qed.

(** What the world can be after [write_file]. *)
Lemma write_file_world w name content r w' :
  write_file w name content = (r, w') →
  w' = w
  ∨ ∃ t text,
      Os.namei w (posixpath.join BEANS_DIR name) = Return t
      ∧ Os.node_at (Os.disk w) t ≠ Some Os.Dir
      ∧ w' = Os.with_disk w (<[t := Os.File text]> (Os.disk w)).
Proof.
  destruct (endswith name ".kt") eqn:Hext.
  - rewrite write_file_kt by done.
    destruct (write_text_cases w (posixpath.join BEANS_DIR name) content)
      as [(e & _ & ->)
         |(t & Hp & Ht & _
           & [[_ ->]|[(_ & _ & ->)|(n & m & k & _ & _ & ->)]])].
    + destruct e; intros [= _ <-]; by left.
    + intros [= _ <-]. right. by exists t, "".
    + intros [= _ <-]. right. by eexists t, _.
    + intros [= _ <-]. right. by exists t, k.
  - rewrite write_file_rejected by done. intros [= _ <-]. by left.
Qed.

Lemma write_file_success w name content w' :
  write_file w name content
  = (Return ("Successfully wrote content to " +:+ name), w') →
  endswith name ".kt" = true
  ∧ takes w (posixpath.join BEANS_DIR name) content
  ∧ ∃ t, Os.namei w (posixpath.join BEANS_DIR name) = Return t
         ∧ Os.node_at (Os.disk w) t ≠ Some Os.Dir
         ∧ w' = Os.with_disk w
                  (<[t := Os.File (universal_newlines content)]> (Os.disk w)).
Proof.
  destruct (endswith name ".kt") eqn:Hext.
  - rewrite write_file_kt by done.
    destruct (write_text_cases w (posixpath.join BEANS_DIR name) content)
      as [(e & _ & ->)
         |(t & Hp & Ht & Hmay
           & [[_ ->]|[(Henc & Hdev & ->)|(n & m & k & _ & _ & ->)]])].
    + by destruct e.
    + done.
    + intros [= <-]. split; [done|]. split; [done|]. by exists t.
    + by intros [=].
  - rewrite write_file_rejected by done. by intros [=].
Qed.


(** X7.  A write leaves every other file as it was: what could be read
    before under a path that leads elsewhere reads the same after. *)
Theorem write_file_frame w name content w' p text :
  write_file w name content
  = (Return ("Successfully wrote content to " +:+ name), w') →
  Os.read_text w p = Return text →
  Os.namei w p ≠ Os.namei w (posixpath.join BEANS_DIR name) →
  Os.read_text w' p = Return text.
Proof.
  intros (_ & _ & t & Hp & Ht & ->)%write_file_success.
  unfold Os.read_text.
  destruct (Os.namei w p) as [t'|e] eqn:Hp'; [|done].
  cbn [mbind result_bind bind]. intros Hread Hne.
  rewrite (namei_keeps w _ p t' (insert_keeps_dirs _ _ _ Ht) Hp').
  cbn [mbind result_bind bind Os.disk Os.with_disk].
  rewrite node_at_insert_ne; [done|]. intros ->. by rewrite Hp in Hne.
Qed.

(** X8.  [write_file] makes no directory and removes none, whatever its
    answer: the directories after the call are the directories before it. *)
Theorem write_file_keeps_directories w name content r w' q :
  write_file w name content = (r, w') →
  Os.node_at (Os.disk w') q = Some Os.Dir
  ↔ Os.node_at (Os.disk w) q = Some Os.Dir.
Proof.
  intros [->|(t & text & _ & Ht & ->)]%write_file_world; [done|].
  cbn [Os.disk Os.with_disk].
  destruct (decide (t = q)) as [->|Hne].
  - rewrite node_at_insert by (by intros ->). split; [done|].
    intros Hq. by rewrite Hq in Ht.
  - by rewrite node_at_insert_ne.
Qed.

(** X9.  [write_file] answers with a string, a success or an error, in
    these cases and in no other: the name does not end in [.kt]; or the name
    can be handed to the system as a path and the content can be encoded;
    or the name can be handed to the system as a path and the file is not
    opened.  In every other case an exception leaves the tool: for a name
    with a NUL character or a character that cannot be encoded, and for a
    content that cannot be encoded once the file is open. *)
Theorem write_file_answers w name content :
  (∃ msg, (write_file w name content).1 = Return msg
          ∧ (is_success msg ∨ is_error msg))
  ↔ endswith name ".kt" = false
    ∨ (passes w name
       ∧ (Os.encodable w content = true
          ∨ ∃ e, Os.open_w w (posixpath.join BEANS_DIR name)
                 = (Raise e, w))).
Proof.
  destruct (endswith name ".kt") eqn:Hext.
  2:{ rewrite write_file_rejected by done. split; [by left|].
      intros _. eexists. split; [done|]. by right. }
  rewrite write_file_kt by done.
  destruct (write_text_cases w (posixpath.join BEANS_DIR name) content)
    as [(e & Hopen & ->)
       |(t & Hp & Ht & Hmay
         & [[Henc ->]|[(Henc & Hdev & ->)|(n & m & k & Henc & Hdev & ->)]])].
  - destruct (decide (passes w (posixpath.join BEANS_DIR name)))
      as [Hpass|Hpass].
    + destruct (open_w_OSError _ _ _ _ Hpass Hopen) as (n & m & f & ->).
      split.
      * intros _. right. split; [by apply passes_join_BEANS_DIR|].
        right. by eexists.
      * intros _. eexists. split; [done|]. by right.
    + split.
      * unfold Os.open_w in Hopen.
        rewrite (namei_not_passes _ _ Hpass) in Hopen.
        injection Hopen as <-.
        by destruct (Os.fsencodable w _); intros (? & ? & _).
      * intros [|[Hname _]]; [done|].
        by apply passes_join_BEANS_DIR in Hname.
  - split; [by intros (? & ? & _)|].
    intros [|[_ [|[e Hopen]]]]; [done|congruence|].
    assert (Os.open_w w (posixpath.join BEANS_DIR name)
            = (Return t,
               Os.with_disk w (<[t := Os.File ""]> (Os.disk w))))
      as Hopen' by by apply open_w_Return.
    congruence.
  - split.
    + intros _. right.
      split; [by eapply passes_join_BEANS_DIR, namei_passes|by left].
    + intros _. eexists. split; [done|]. left.
      apply (startswith_app "Successfully" (" wrote content to " +:+ name)).
  - split.
    + intros _. right.
      split; [by eapply passes_join_BEANS_DIR, namei_passes|by left].
    + intros _. eexists. split; [done|]. by right.
Qed.

End write_file_more.


Lemma write_file_frame_witness :
  let w' := (write_file project_world "New.kt" "class New").2 in
  Os.read_text w' (file_path unit_A) = Return (content unit_A).
Proof.
  intros w'.
  apply (write_file_frame project_world "New.kt" "class New").
  - assert ((write_file project_world "New.kt" "class New").1
            = Return ("Successfully wrote content to " +:+ "New.kt"))
      as <- by by_running.
    apply surjective_pairing.
  - by_running.
  - vm_compute. discriminate.
Defined.

Lemma write_file_keeps_directories_witness :
  Os.node_at (Os.disk (write_file project_world "New.kt" "class New").2)
    beans_place = Some Os.Dir.
Proof.
  apply (write_file_keeps_directories project_world "New.kt" "class New"
           (write_file project_world "New.kt" "class New").1).
  - apply surjective_pairing.
  - by_running.
Defined.

(** ** More on the tool [create_directory] *)

Section create_directory_more.

Implicit Types w : Os.world.
Implicit Types d : gmap (list string) Os.node.
Implicit Types cur t q : list string.

(** What [os.makedirs] adds is directories. *)
Lemma mkdir_step_adds_dirs w d cur c p r d' q x :
  Os.mkdir_step w d cur c p = (r, d') →
  d' !! q = Some x → d !! q = Some x ∨ x = Os.Dir.
Proof.
  unfold Os.mkdir_step. intros Hstep Hq.
  repeat (case_match || case_bool_decide); simplify_eq; try by left.
  apply lookup_insert_Some in Hq as [[_ <-]|[_ Hq]]; [by right|by left].
Qed.

Lemma makedirs_from_adds_dirs w cs p : ∀ d cur r d' q x,
  Os.makedirs_from w d cur cs p = (r, d') →
  d' !! q = Some x → d !! q = Some x ∨ x = Os.Dir.
Proof.
  induction cs as [|c cs IH]; intros d cur r d' q x; cbn [Os.makedirs_from].
  - intros [= _ <-]. by left.
  - destruct (Os.mkdir_step w d cur c p) as [[cur1|e] d1] eqn:Hstep.
    + intros Hrec Hq. destruct (IH _ _ _ _ _ _ Hrec Hq) as [Hq1|Hx];
        [|by right].
      by eapply mkdir_step_adds_dirs.
    + intros [= _ <-]. by eapply mkdir_step_adds_dirs.
Qed.

(** What the world can be after [os.makedirs]. *)
Lemma makedirs_world w p r w' :
  Os.makedirs w p = (r, w') →
  ∃ d', w' = Os.with_disk w d'
        ∧ Os.disk w ⊆ d'
        ∧ ∀ q x, d' !! q = Some x → Os.disk w !! q = Some x ∨ x = Os.Dir.
Proof.
  unfold Os.makedirs. destruct (String.eqb p "").
  { intros [= _ <-]. exists (Os.disk w).
    split; [by rewrite with_disk_same|]. split; [done|]. by left. }
  destruct (Os.makedirs_from w (Os.disk w) (Os.origin w p) (split p "/") p)
    as [res d'] eqn:Hmk.
  intros Hw'. exists d'. split; [|split].
  - destruct res as [t|e]; [|by injection Hw' as _ <-].
    by destruct (Os.node_at d' t) as [[]|]; injection Hw' as _ <-.
  - by eapply makedirs_from_subseteq.
  - intros q x. by eapply makedirs_from_adds_dirs.
Qed.

Lemma create_directory_world w dir_name r w' :
  create_directory w dir_name = (r, w') →
  ∃ r0, Os.makedirs w (posixpath.join BEANS_DIR dir_name) = (r0, w').
Proof.
  unfold create_directory.
  destruct (Os.makedirs w _) as [[[]|e] w1]; [|destruct e];
    intros [= _ <-]; by eexists.
Qed.

(** X10.  [create_directory] only adds directories, whatever its answer:
    every entry of the disk stays as it was, every new entry is a directory,
    and what could be read before reads the same after. *)
Theorem create_directory_only_adds w dir_name r w' :
  create_directory w dir_name = (r, w') →
  Os.disk w ⊆ Os.disk w'
  ∧ (∀ q x, Os.disk w' !! q = Some x →
            Os.disk w !! q = Some x ∨ x = Os.Dir)
  ∧ ∀ p text, Os.read_text w p = Return text →
              Os.read_text w' p = Return text.
Proof.
  intros [r0 Hmk]%create_directory_world.
  apply makedirs_world in Hmk as (d' & -> & Hsub & Hnew).
  split; [done|]. split; [done|].
  intros p text. unfold Os.read_text.
  destruct (Os.namei w p) as [t|e] eqn:Hp; [|done].
  rewrite (namei_keeps w d' p t (subseteq_keeps_dirs _ _ Hsub) Hp).
  cbn [mbind result_bind bind Os.disk Os.with_disk].
  destruct (Os.node_at (Os.disk w) t) as [[text'|]|] eqn:Ht; try done.
  by rewrite (node_at_weaken _ d' t _ Hsub Ht).
Qed.






End create_directory_more.

Lemma create_directory_only_adds_witness :
  Os.read_text (create_directory project_world "c/d").2 (file_path unit_A)
  = Return (content unit_A).
Proof.
  apply (create_directory_only_adds project_world "c/d"
           (create_directory project_world "c/d").1
           (create_directory project_world "c/d").2).
  - apply surjective_pairing.
  - by_running.
Defined.


(** ** The file tools together, and with the loader *)

Section tools_together.

Implicit Types w : Os.world.
Implicit Types d : gmap (list string) Os.node.
Implicit Types cur t : list string.

Lemma prefix_nil s : String.prefix "" s = true.
Proof. by destruct s. Qed.

Lemma startswith_app_l (s u : string) :
  s ≠ "" → startswith (s +:+ u) "/" = startswith s "/".
Proof.
  destruct s as [|a s]; [done|]. intros _. unfold startswith.
  rewrite str_app_cons.
  change (String.prefix "/" (String a (s +:+ u)))
    with (if Ascii.ascii_dec "/" a then String.prefix "" (s +:+ u) else false).
  change (String.prefix "/" (String a s))
    with (if Ascii.ascii_dec "/" a then String.prefix "" s else false).
  by rewrite !prefix_nil.
Qed.

Lemma split_no_sep s sep : contains s sep = false → split s sep = [s].
Proof.
  induction s as [|a s IH]; [done|]. cbn [contains split].
  intros [Ha Hs]%orb_false_iff. by rewrite Ha, (IH Hs).
Qed.

(** The parts of a path followed by a slash and a name are the parts of the
    path and the name. *)
Lemma split_app_sep s f sep :
  contains f sep = false →
  split (s +:+ String sep f) sep = split s sep ++ [f].
Proof.
  intros Hf. induction s as [|a s IH].
  - rewrite str_app_nil_l. cbn [split].
    by rewrite Ascii.eqb_refl, (split_no_sep f sep Hf).
  - rewrite str_app_cons. cbn [split]. rewrite IH.
    destruct (Ascii.eqb a sep); [done|].
    pose proof (split_not_nil s sep) as Hnil.
    by destruct (split s sep).
Qed.

Lemma lookup_from_app d cs1 cs2 p : ∀ cur,
  Os.lookup_from d cur (cs1 ++ cs2) p
  = Os.lookup_from d cur cs1 p ≫= λ cur', Os.lookup_from d cur' cs2 p.
Proof.
  induction cs1 as [|c cs1 IH]; intros cur; [done|].
  cbn [app Os.lookup_from].
  destruct (Os.enter d cur c p) as [cur1|e]; [|done].
  cbn [mbind result_bind bind]. apply IH.
Qed.

(** Where a path leads does not depend on how the path is spelled in the
    error messages. *)
Lemma lookup_from_path d cs p p' : ∀ cur t,
  Os.lookup_from d cur cs p = Return t →
  Os.lookup_from d cur cs p' = Return t.
Proof.
  induction cs as [|c cs IH]; intros cur t; [done|].
  cbn [Os.lookup_from]. unfold Os.enter.
  destruct (Os.node_at d cur) as [[]|]; try done.
  repeat case_bool_decide; cbn [mbind result_bind bind]; apply IH.
Qed.

Lemma kt_name_plain f :
  endswith f ".kt" = true → f ≠ "" ∧ f ≠ "." ∧ f ≠ "..".
Proof.
  intros [pre ->]%endswith_spec.
  repeat split; intros Heq; apply (f_equal String.length) in Heq;
    rewrite str_app_length in Heq; simpl in Heq; lia.
Qed.

Lemma passes_child w p f :
  passes w (p +:+ "/" +:+ f) ↔ passes w p ∧ passes w f.
Proof.
  unfold passes, Os.fsencodable. rewrite !encodes_app, !contains_app.
  change (Os.encodes (Os.fs_chars w) "/") with true.
  change (contains "/" Os.NUL) with false.
  rewrite andb_true_iff, !orb_false_iff. intuition congruence.
Qed.

(** The path of a file with a plain name in a directory leads to the place
    of that name in the place of the directory, and the other way round. *)
Lemma namei_child w p f t :
  p ≠ "" →
  contains f "/" = false → passes w f →
  endswith f ".kt" = true →
  Os.namei w (p +:+ "/" +:+ f) = Return t ↔
  ∃ t0, Os.namei w p = Return t0
        ∧ Os.node_at (Os.disk w) t0 = Some Os.Dir
        ∧ t = f :: t0.
Proof.
  intros Hp Hslash Hpass (Hf1 & Hf2 & Hf3)%kt_name_plain.
  rewrite namei_Return, passes_child.
  change ("/" +:+ f) with (String "/" f).
  assert (Os.origin w (p +:+ String "/" f) = Os.origin w p) as ->.
  { unfold Os.origin. by rewrite startswith_app_l. }
  rewrite split_app_sep by done. rewrite lookup_from_app. split.
  - intros ((Hpp & _) & _ & Hlook).
    destruct (Os.lookup_from (Os.disk w) (Os.origin w p) (split p "/")
                (p +:+ String "/" f)) as [t0|e] eqn:Hlook0; [|done].
    revert Hlook. cbn [mbind result_bind bind Os.lookup_from].
    unfold Os.enter.
    destruct (Os.node_at (Os.disk w) t0) as [[]|] eqn:Ht0; try done.
    rewrite bool_decide_false by (by intros [|]).
    rewrite bool_decide_false by done.
    cbn [mbind result_bind bind]. intros [= <-]. exists t0.
    split; [|done]. apply namei_Return. split; [done|]. split; [done|].
    by apply (lookup_from_path _ _ (p +:+ String "/" f)).
  - intros (t0 & (Hpp & _ & Hlook)%namei_Return & Hdir & ->).
    split; [done|]. split; [by destruct p|].
    rewrite (lookup_from_path _ _ _ (p +:+ String "/" f) _ _ Hlook).
    cbn [mbind result_bind bind Os.lookup_from]. unfold Os.enter.
    rewrite Hdir. rewrite bool_decide_false by (by intros [|]).
    by rewrite bool_decide_false by done.
Qed.

Lemma join_BEANS_DIR_child dir_name f :
  dir_name ≠ "" →
  posixpath.join BEANS_DIR (dir_name +:+ "/" +:+ f)
  = posixpath.join BEANS_DIR dir_name +:+ "/" +:+ f.
Proof.
  intros Hdir. rewrite !join_BEANS_DIR, startswith_app_l by done.
  destruct (startswith dir_name "/"); [done|].
  by rewrite <-!str_app_assoc.
Qed.

Lemma create_directory_success w dir_name w' :
  create_directory w dir_name
  = (Return ("Successfully created directory " +:+ dir_name), w') →
  Os.makedirs w (posixpath.join BEANS_DIR dir_name) = (Return (), w').
Proof.
  unfold create_directory.
  destruct (Os.makedirs w _) as [[[]|e] w1].
  - by intros [= <-].
  - by destruct e; intros [=].
Qed.

(** X13.  The two file tools work together: after [create_directory] has
    made a directory, [write_file] with a name made of the directory name, a
    slash and a plain file name ending in [.kt] puts the file in that
    directory, when the system takes the content and unless a directory of
    the name of the file is in the way. *)
Theorem create_directory_then_write_file w dir_name w' f content :
  create_directory w dir_name
  = (Return ("Successfully created directory " +:+ dir_name), w') →
  dir_name ≠ "" →
  endswith f ".kt" = true →
  contains f "/" = false →
  passes w f →
  ∃ t,
    Os.namei w' (posixpath.join BEANS_DIR dir_name) = Return t
    ∧ Os.node_at (Os.disk w') t = Some Os.Dir
    ∧ (Os.node_at (Os.disk w') (f :: t) ≠ Some Os.Dir →
       takes w' (posixpath.join BEANS_DIR (dir_name +:+ "/" +:+ f)) content →
       write_file w' (dir_name +:+ "/" +:+ f) content
       = (Return ("Successfully wrote content to "
                    +:+ dir_name +:+ "/" +:+ f),
          Os.with_disk w'
            (<[f :: t := Os.File (universal_newlines content)]>
               (Os.disk w')))).
Proof.
  intros Hmk%create_directory_success Hdir Hext Hslash Hpass.
  pose proof (makedirs_world _ _ _ _ Hmk) as (d' & Hw' & _).
  destruct (makedirs_again _ _ _ Hmk) as (_ & t & Hp & Ht).
  exists t. split; [done|]. split; [done|]. intros Hfree Htakes.
  apply write_file_written; [by do 2 apply endswith_app| |done..].
  rewrite join_BEANS_DIR_child by done.
  apply namei_child; try done.
  - rewrite join_BEANS_DIR. destruct (startswith dir_name "/"); [done|].
    by intros [=].
  - by rewrite Hw'.
  - by exists t.
Qed.





End tools_together.

Lemma create_directory_then_write_file_witness :
  let w' := (create_directory project_world "c").2 in
  ∃ t,
    Os.namei w' (posixpath.join BEANS_DIR "c") = Return t
    ∧ Os.node_at (Os.disk w') t = Some Os.Dir
    ∧ (Os.node_at (Os.disk w') ("X.kt" :: t) ≠ Some Os.Dir →
       takes w' (posixpath.join BEANS_DIR ("c" +:+ "/" +:+ "X.kt")) "class X" →
       write_file w' ("c" +:+ "/" +:+ "X.kt") "class X"
       = (Return ("Successfully wrote content to " +:+ "c" +:+ "/" +:+ "X.kt"),
          Os.with_disk w'
            (<["X.kt" :: t := Os.File (universal_newlines "class X")]>
               (Os.disk w')))).
Proof.
  intros w'.
  apply (create_directory_then_write_file project_world "c" w' "X.kt").
  - assert ((create_directory project_world "c").1
            = Return ("Successfully created directory " +:+ "c"))
      as <- by by_running.
    apply surjective_pairing.
  - intros Heq. apply (f_equal String.length) in Heq. discriminate Heq.
  - by_running.
  - by_running.
  - split; by_running.
Defined.


(** ** More on the test tools *)

Section test_tools_more.

Implicit Types w : Os.world.

(** What a test tool raises: the exception of a launch that did not run to
    its end, or [UnicodeDecodeError] for what a run wrote. *)
Lemma test_tool_raises w argv answer prefix e :
  test_tool w argv answer prefix →
  answer = Raise e →
  (subprocess.run w argv PROJECT_ROOT true = Raise e
   ∧ ∀ rc out err, ¬ started w argv rc out err)
  ∨ (e = UnicodeDecodeError
     ∧ ∃ rc out err,
         started w argv rc out err
         ∧ (Os.decode w out = None ∨ Os.decode w err = None)).
Proof.
  intros Htool.
  destruct (test_tool_answer _ _ _ _ Htool) as [[rest Hargv] ->].
  destruct (started_or_not w argv) as [(rc & out & err & Hrun)|Hno].
  - rewrite (run_started w argv rest rc out err Hargv Hrun). intros Hraise.
    right. destruct (subprocess.text w out) as [o|e1] eqn:Hout.
    + destruct (subprocess.text w err) as [e0|e2] eqn:Herr.
      * revert Hraise. cbn [mbind result_bind bind].
        by destruct (rc =? 0).
      * apply text_Raise in Herr as [Herr ->].
        injection Hraise as <-. split; [done|].
        exists rc, out, err. by split; [|right].
    + apply text_Raise in Hout as [Hout ->].
      injection Hraise as <-. split; [done|].
      exists rc, out, err. by split; [|left].
  - destruct (run_not_started w argv rest Hargv Hno) as (e' & -> & He).
    intros Hraise. left. split; [|done].
    destruct He as [[_ (n & m & f & ->)]|[_ [->| ->]]];
      by injection Hraise as <-.
Qed.

Lemma specific_argv_convert w bean_name :
  subprocess.convert_args w
    ["./gradlew"; "test";
     "--tests=org.camelai.beans." +:+ bean_name +:+ "Test"]
  = Os.fsconvert w bean_name.
Proof.
  cbn [subprocess.convert_args].
  change (Os.fsconvert w "./gradlew") with (Return () : result ()).
  change (Os.fsconvert w "test") with (Return () : result ()).
  cbn [mbind result_bind bind]. unfold Os.fsconvert, Os.fsencodable.
  rewrite !encodes_app, !contains_app.
  change (Os.encodes (Os.fs_chars w) "--tests=org.camelai.beans.") with true.
  change (Os.encodes (Os.fs_chars w) "Test") with true.
  change (contains "--tests=org.camelai.beans." Os.NUL) with false.
  change (contains "Test" Os.NUL) with false.
  rewrite andb_true_r, orb_false_r. cbn [andb orb].
  by destruct (Os.encodes (Os.fs_chars w) bean_name),
    (contains bean_name Os.NUL).
Qed.

(** X15.  [CalledProcessError] is the only exception that
    [run_all_bean_tests] catches, and it never lets one out.  What the tool
    raises is either an [OSError], when the runner was not started or did
    not run to its end, or [UnicodeDecodeError], when the runner ran and
    what it wrote cannot be read as text. *)
Theorem run_all_bean_tests_raises w e :
  run_all_bean_tests w = Raise e →
  let argv := ["./gradlew"; "test"; "--tests=org.camelai.beans.*"] in
  ((∃ n m f, e = OSError n m f)
   ∧ ∀ rc out err, ¬ started w argv rc out err)
  ∨ (e = UnicodeDecodeError
     ∧ ∃ rc out err,
         started w argv rc out err
         ∧ (Os.decode w out = None ∨ Os.decode w err = None)).
Proof.
  intros Hraise argv.
  destruct (test_tool_raises _ _ _ _ _ (all_bean_tests w) Hraise)
    as [[Hrun Hno]|Hgarbled]; [left|by right].
  split; [|done].
  destruct (run_not_started w argv _ eq_refl Hno)
    as (e' & Hrun' & [[_ He]|[Hargs _]]).
  - unfold argv in Hrun'. by assert (e' = e) as <- by congruence.
  - by vm_compute in Hargs.
Qed.

Lemma specific_raises w bean_name e :
  Os.fsconvert w bean_name = Return () →
  run_specific_bean_test w bean_name = Raise e →
  let argv := ["./gradlew"; "test";
               "--tests=org.camelai.beans." +:+ bean_name +:+ "Test"] in
  ((∃ n m f, e = OSError n m f)
   ∧ ∀ rc out err, ¬ started w argv rc out err)
  ∨ (e = UnicodeDecodeError
     ∧ ∃ rc out err,
         started w argv rc out err
         ∧ (Os.decode w out = None ∨ Os.decode w err = None)).
Proof.
  intros Hpass Hraise argv.
  destruct (test_tool_raises _ _ _ _ _ (specific_bean_test w bean_name)
              Hraise)
    as [[Hrun Hno]|Hgarbled]; [left|by right].
  split; [|done].
  destruct (run_not_started w argv _ eq_refl Hno)
    as (e' & Hrun' & [[_ He]|[Hargs _]]).
  - unfold argv in Hrun'. by assert (e' = e) as <- by congruence.
  - unfold argv in Hargs. rewrite specific_argv_convert in Hargs. congruence.
Qed.

(** X16.  For a name that can be handed to the system,
    [run_specific_bean_test] raises in the same two ways: an [OSError] when
    the runner was not started or did not run to its end, or
    [UnicodeDecodeError] when the runner ran and what it wrote cannot be
    read as text. *)
Theorem run_specific_bean_test_raises w bean_name e :
  passes w bean_name →
  run_specific_bean_test w bean_name = Raise e →
  let argv := ["./gradlew"; "test";
               "--tests=org.camelai.beans." +:+ bean_name +:+ "Test"] in
  ((∃ n m f, e = OSError n m f)
   ∧ ∀ rc out err, ¬ started w argv rc out err)
  ∨ (e = UnicodeDecodeError
     ∧ ∃ rc out err,
         started w argv rc out err
         ∧ (Os.decode w out = None ∨ Os.decode w err = None)).
Proof. intros Hpass%fsconvert_Return. by apply specific_raises. Qed.

(** X17.  A name that cannot be handed to the system is refused before the
    runner is looked for, in every world: [run_specific_bean_test] raises
    [UnicodeEncodeError] exactly for the names that cannot be encoded, and
    the [ValueError] of an embedded null byte exactly for the names that can
    be encoded and hold a NUL character. *)
Theorem run_specific_bean_test_NUL w bean_name :
  (run_specific_bean_test w bean_name = Raise UnicodeEncodeError
   ↔ Os.fsencodable w bean_name = false)
  ∧ (run_specific_bean_test w bean_name
     = Raise (ValueError "embedded null byte")
     ↔ Os.fsencodable w bean_name = true
       ∧ contains bean_name Os.NUL = true).
Proof.
  destruct (Os.fsconvert w bean_name) as [[]|e0] eqn:Hconv.
  - pose proof Hconv as [Henc Hnul]%fsconvert_Return.
    rewrite Henc, Hnul.
    split; (split; [|by intros; destruct_and?]); intros Hraise;
      by destruct (specific_raises w bean_name _ Hconv Hraise)
        as [[(n & m & f & ?) _]|[? _]].
  - assert (run_specific_bean_test w bean_name = Raise e0) as ->.
    { unfold run_specific_bean_test.
      rewrite (run_not_converted _ _ _ _ e0);
        [|by rewrite specific_argv_convert].
      by destruct (fsconvert_Raise _ _ _ Hconv) as [->| ->]. }
    revert Hconv. unfold Os.fsconvert.
    destruct (Os.fsencodable w bean_name), (contains bean_name Os.NUL);
      cbn [negb]; intros [= <-]; intuition congruence.
Qed.

End test_tools_more.

Lemma run_all_bean_tests_raises_witness :
  let argv := ["./gradlew"; "test"; "--tests=org.camelai.beans.*"] in
  ((∃ n m f, OSError 13 "Permission denied" (Some "./gradlew")
             = OSError n m f)
   ∧ ∀ rc out err, ¬ started locked_world argv rc out err)
  ∨ (OSError 13 "Permission denied" (Some "./gradlew") = UnicodeDecodeError
     ∧ ∃ rc out err,
         started locked_world argv rc out err
         ∧ (Os.decode locked_world out = None
            ∨ Os.decode locked_world err = None)).
Proof. apply (run_all_bean_tests_raises locked_world). by_running. Defined.

Lemma run_specific_bean_test_raises_witness :
  let argv := ["./gradlew"; "test";
               "--tests=org.camelai.beans." +:+ "Foo" +:+ "Test"] in
  ((∃ n m f, UnicodeDecodeError = OSError n m f)
   ∧ ∀ rc out err, ¬ started garbled_world argv rc out err)
  ∨ (UnicodeDecodeError = UnicodeDecodeError
     ∧ ∃ rc out err,
         started garbled_world argv rc out err
         ∧ (Os.decode garbled_world out = None
            ∨ Os.decode garbled_world err = None)).
Proof.
  apply (run_specific_bean_test_raises garbled_world "Foo");
    [split|]; by_running.
Defined.

(** ** More on setting up the workforce *)

Section setup_more.

Implicit Types beans : list QuarkusBean.
Implicit Types bean b : QuarkusBean.
Implicit Types wf : camel.Workforce tool.


(** X19.  The name [Manager] is not kept for the manager: a unit of that
    name gets an agent under the same name and with the same role name as
    the manager, which stays the first agent. *)
Theorem manager_name_not_reserved beans bean descr :
  bean ∈ beans →
  name bean = "Manager" →
  let agents :=
    camel.children (_setup_workforce beans (camel.Workforce_init descr)) in
  agents !! 0%nat = Some manager
  ∧ ∃ i agent,
      (0 < i)%nat
      ∧ agents !! i = Some ("Manager", agent)
      ∧ camel.role_name (camel.system_message agent) = "Manager Agent".
Proof.
  intros [i Hi]%list_elem_of_lookup Hname agents. subst agents.
  rewrite setup_workforce_children. cbn [camel.children camel.Workforce_init].
  rewrite app_nil_l. split; [done|].
  exists (S i), (worker_of beans bean).2. split; [lia|]. split.
  - change ((worker_of beans <$> beans) !! i
            = Some ("Manager", (worker_of beans bean).2)).
    rewrite list_lookup_fmap, Hi. unfold worker_of. cbn. by rewrite Hname.
  - unfold worker_of. cbn. by rewrite Hname.
Qed.

End setup_more.

Lemma manager_name_not_reserved_witness :
  let agents :=
    camel.children
      (_setup_workforce [mkBean "beans/Manager.kt" "Manager" "class Manager" ""]
         (camel.Workforce_init "Quarkus Codebase Manager")) in
  agents !! 0%nat = Some manager
  ∧ ∃ i agent,
      (0 < i)%nat
      ∧ agents !! i = Some ("Manager", agent)
      ∧ camel.role_name (camel.system_message agent) = "Manager Agent".
Proof.
  apply (manager_name_not_reserved
           [mkBean "beans/Manager.kt" "Manager" "class Manager" ""]
           (mkBean "beans/Manager.kt" "Manager" "class Manager" "")).
  - by left.
  - reflexivity.
Defined.

(** ** The tasks *)

Section tasks.

Lemma str_app_inj_r (a b s : string) : a +:+ s = b +:+ s → a = b.
Proof.
  revert b. induction a as [|x a IH]; intros [|y b] Heq.
  - done.
  - apply (f_equal String.length) in Heq.
    rewrite str_app_nil_l, str_app_cons in Heq. simpl in Heq.
    rewrite str_app_length in Heq. lia.
  - apply (f_equal String.length) in Heq.
    rewrite str_app_nil_l, str_app_cons in Heq. simpl in Heq.
    rewrite str_app_length in Heq. lia.
  - rewrite !str_app_cons in Heq. injection Heq as -> Heq.
    by rewrite (IH b Heq).
Qed.

(** X20.  The id of the task of a message names the agent it is sent to and
    nothing else: two messages have tasks of the same id exactly when they
    go to the same agent, whoever sends them and whatever they say.  It is
    never the id of the task of a change request. *)
Theorem message_task_id (to1 from1 msg1 to2 from2 msg2 request : string) :
  (task_id (send_message to1 from1 msg1).1.1.1
   = task_id (send_message to2 from2 msg2).1.1.1
   ↔ to1 = to2)
  ∧ task_id (send_message to1 from1 msg1).1.1.1
    ≠ task_id (process_change_request request).
Proof.
  cbn [send_message process_change_request task_id fst]. split.
  - split; [|by intros ->]. apply (inj (String.app _)).
  - change ("inter_agent_message_" +:+ to1)
      with (String "i" ("nter_agent_message_" +:+ to1)).
    discriminate.
Qed.

(** X21.  The content of a task holds the text it was made for: with the
    same sender, two messages make tasks of the same content only when they
    are the same message, and two change requests make tasks of the same
    content only when they are the same request. *)
Theorem task_content_inj (to1 to2 from msg1 msg2 r1 r2 : string) :
  (task_content (send_message to1 from msg1).1.1.1
   = task_content (send_message to2 from msg2).1.1.1
   ↔ msg1 = msg2)
  ∧ (task_content (process_change_request r1)
     = task_content (process_change_request r2)
     ↔ r1 = r2).
Proof.
  cbn [send_message process_change_request task_content fst].
  unfold message_content. split; (split; [|by intros ->]); intros Heq.
  - do 3 apply (inj (String.app _)) in Heq.
    by apply str_app_inj_r in Heq.
  - apply (inj (String.app _)) in Heq.
    by apply str_app_inj_r in Heq.
Qed.

End tasks.
